(** * mochi_to_grok: the deck exporter of [src/main.py]

    A shallow embedding of the exporter: deck resolution and card fetching
    over a paginated HTTP listing, the per-card parser and the vocabulary
    writer, followed by the properties of the design document checked
    against them.

    Conventions of the embedding:
    - a Python [str] is a list of Unicode code points ([str]);
    - JSON values as [response.json()] delivers them are the type [json],
      a [dict] being the list of its items in insertion order;
    - a raised exception is a value of [exn]; code that can raise lives in
      the error monad [sum exn];
    - the HTTP server is a script: the list of outcomes of the successive
      [client.get] calls.  A run that issues a request when the script is
      used up ends [Awaiting] that request;
    - [print], [time.sleep] and [client.get] are recorded in a trace of
      [event]s, a request when it is answered; the file system is a map
      from paths to contents;
    - text goes to the output stream and to the file through a UTF-8
      encoder, which refuses a lone surrogate: the [print] of a card and a
      [f.write] of such a text raise. *)

From Stdlib Require Import String Ascii.
From Stdlib Require Import List ZArith NArith Bool Lia Arith.
From ExtLib Require Import Structures.Monad Structures.MonadExc Data.Monads.EitherMonad.
Import ListNotations.
Import MonadNotation.
Local Open Scope monad_scope.
Local Open Scope list_scope.

(** ** Strings *)

Definition char := N.
Definition str := list char.

(** An ASCII literal of the source as a [str]. *)
Definition lit (s : string) : str := map N_of_ascii (list_ascii_of_string s).
Arguments lit s%_string.

Fixpoint str_eqb (a b : str) : bool :=
  match a, b with
  | [], [] => true
  | x :: a', y :: b' => N.eqb x y && str_eqb a' b'
  | _, _ => false
  end.

Definition is_empty {A : Type} (l : list A) : bool :=
  match l with [] => true | _ => false end.

(** Python's whitespace ([str.isspace], the regex class [\s] of a [str]
    pattern and what [str.strip] removes: [Py_UNICODE_ISSPACE]). *)
Definition is_space (c : char) : bool :=
  (((9 <=? c) && (c <=? 13)) || ((28 <=? c) && (c <=? 32))
   || (c =? 133) || (c =? 160) || (c =? 5760)
   || ((8192 <=? c) && (c <=? 8202))
   || (c =? 8232) || (c =? 8233) || (c =? 8239) || (c =? 8287) || (c =? 12288))%N.

(** The code points UTF-8 does not encode: the surrogates.  A [str] can
    hold one (the JSON escape [\ud800] gives one); encoding it raises
    [UnicodeEncodeError]. *)
Definition is_surrogate (c : char) : bool := ((55296 <=? c) && (c <=? 57343))%N.

Definition encodable (s : str) : bool :=
  forallb (fun c => negb (is_surrogate c)) s.

Definition ch_V : char := 86%N.          (* 'V' *)
Definition ch_Z : char := 90%N.          (* 'Z' *)
Definition ch_newline : char := 10%N.    (* '\n' *)
Definition ch_lparen : char := 40%N.     (* '(' *)
Definition ch_rparen : char := 41%N.     (* ')' *)

Fixpoint drop_while {A : Type} (p : A -> bool) (l : list A) : list A :=
  match l with
  | [] => []
  | x :: l' => if p x then drop_while p l' else l
  end.

Fixpoint take_while {A : Type} (p : A -> bool) (l : list A) : list A :=
  match l with
  | [] => []
  | x :: l' => if p x then x :: take_while p l' else []
  end.

(** [str.lstrip()], [str.rstrip()], [str.strip()]. *)
Definition lstrip (s : str) : str := drop_while is_space s.
Definition rstrip (s : str) : str := rev (drop_while is_space (rev s)).
Definition strip (s : str) : str := rstrip (lstrip s).

(** [s.replace("Z", "+00:00")]. *)
Definition replace_Z (s : str) : str :=
  flat_map (fun c => if N.eqb c ch_Z then lit "+00:00" else [c]) s.

(** *** The two regular expressions of [parse_card] *)

(** [(.*?)\)] anchored at the head of [s]: the shortest run of characters
    other than a newline that a [')'] follows; the run is the group. *)
Fixpoint lazy_group (s : str) : option str :=
  match s with
  | [] => None
  | c :: s' =>
      if N.eqb c ch_rparen then Some []
      else if N.eqb c ch_newline then None
      else match lazy_group s' with
           | Some g => Some (c :: g)
           | None => None
           end
  end.

(** [re.search(r'\((.*?)\)', s)]: group 1 of the leftmost match. *)
Fixpoint re_search_paren (s : str) : option str :=
  match s with
  | [] => None
  | c :: s' =>
      if N.eqb c ch_lparen then
        match lazy_group s' with
        | Some g => Some g
        | None => re_search_paren s'
        end
      else re_search_paren s'
  end.

(** The length of the match of [\s*V\s*] anchored at the head of [s]: the
    whitespace run there, a ['V'], and the whitespace run after it. *)
Definition match_V_len (s : str) : option nat :=
  match drop_while is_space s with
  | c :: r =>
      if N.eqb c ch_V
      then Some (length (take_while is_space s) + 1 + length (take_while is_space r))
      else None
  | [] => None
  end.

(** [re.sub(r'\s*V\s*', '', s)], scanning left to right: [skip] characters
    of the match in progress are still to be dropped; outside a match the
    pattern is tried at the current position, and the character there is
    kept when it does not match. *)
Fixpoint re_sub_V_from (skip : nat) (s : str) : str :=
  match s with
  | [] => []
  | c :: s' =>
      match skip with
      | S k => re_sub_V_from k s'
      | O =>
          match match_V_len s with
          | Some (S k) => re_sub_V_from k s'
          | _ => c :: re_sub_V_from 0 s'
          end
      end
  end.

Definition re_sub_V (s : str) : str := re_sub_V_from 0 s.

(** ** JSON values and the Python operations on them *)

#[local] Set Warnings "-register-all".

Inductive json : Type :=
| JNull
| JBool (b : bool)
| JNum (n : Z)
| JStr (s : str)
| JArr (items : list json)
| JObj (members : list (str * json)).

(** Python truthiness ([if x], [not x]). *)
Definition truthy (j : json) : bool :=
  match j with
  | JNull => false
  | JBool b => b
  | JNum n => negb (Z.eqb n 0)
  | JStr s => negb (is_empty s)
  | JArr l => negb (is_empty l)
  | JObj m => negb (is_empty m)
  end.

(** The text [json.dumps(j, ensure_ascii=False)] can be encoded: the dump
    keeps the characters of every string of [j], keys included, and adds
    ASCII only. *)
Fixpoint json_encodable (j : json) : bool :=
  match j with
  | JStr s => encodable s
  | JArr items => forallb json_encodable items
  | JObj members =>
      forallb (fun kv => encodable (fst kv) && json_encodable (snd kv)) members
  | _ => true
  end.

Inductive endpoint := Decks | Cards.

(** Exceptions.  The three [Exception(...)] the fetch loops build keep what
    their message is formatted from. *)
Inductive exn : Type :=
| AttributeError
| TypeError
| ValueError
| KeyError (key : str)
| TransportError (info : str)
| JSONDecodeError
| FailedToFetch (op : endpoint) (status_code : Z) (text : str)
| TimedOutAfterRetries (op : endpoint)
| DeckNotFound (deck_name : str)
| ConfigurationError
| UnicodeEncodeError
| OSError (info : str).

Definition M := sum exn.

Fixpoint assoc {A : Type} (key : str) (m : list (str * A)) : option A :=
  match m with
  | [] => None
  | (k, v) :: m' => if str_eqb k key then Some v else assoc key m'
  end.

(** [d.get(key, default)]; anything but a dict has no attribute [get]. *)
Definition py_get (d : json) (key : str) (default : json) : M json :=
  match d with
  | JObj m => ret (match assoc key m with Some v => v | None => default end)
  | _ => raise AttributeError
  end.

(** [d.items()]. *)
Definition py_items (d : json) : M (list (str * json)) :=
  match d with
  | JObj m => ret m
  | _ => raise AttributeError
  end.

(** [d[key]]: [KeyError] on a dict without the key; indexing anything else
    by a string is a [TypeError]. *)
Definition py_index (d : json) (key : str) : M json :=
  match d with
  | JObj m => match assoc key m with Some v => ret v | None => raise (KeyError key) end
  | _ => raise TypeError
  end.

(** ** What the model takes from the Python runtime

    [str.lower] on full Unicode, [datetime.fromisoformat(..).strftime(..)]
    ([None] for the [ValueError] of a malformed timestamp), the text an
    f-string gives a value that is not a string, and the exception of
    [open(path, "w", encoding="utf-8")] for a path the system refuses (the
    empty path, a directory, a folder that is missing), [None] when the
    file is opened. *)
Class Runtime := {
  str_lower : str -> str;
  fromisoformat_strftime : str -> option str;
  py_repr : json -> str;
  open_for_writing : str -> option exn
}.

(** ** Records, events, configuration *)

Record ParsedRecord := {
  pinyin : str;
  hanzi : str;
  meaning : json;
  added : json
}.

Inductive message : Type :=
| MsgLoadedKey (head tail : str)
| MsgFetchingDeck (deck_name : str)
| MsgFetchingCards
| MsgFound (n : nat)
| MsgNoCards
| MsgWriting (path : str)
| MsgExported (path : str)
| MsgRetrying (attempt retries delay : nat)
| MsgFetchedPage (n : nat)
| MsgSkipping (card : json)
| MsgErrorParsing (e : exn) (card : json)
| MsgWrote (n : nat) (path : str)
| MsgError (e : exn).

Inductive event : Type :=
| EvGet (url : str)
| EvSleep (seconds : nat)
| EvPrint (m : message).

Record MochiConfig := {
  api_key : str;
  api_base_url : str;
  deck_name : str;
  output_file : str
}.

Section Parser.
Context {rt : Runtime}.

(** An f-string field [{x}]. *)
Definition py_format (j : json) : str :=
  match j with
  | JStr s => s
  | _ => py_repr j
  end.

(** Lines 103-109: the first entry whose text has a parenthesised group. *)
Fixpoint pinyin_loop (entries : list (str * json)) : M str :=
  match entries with
  | [] => ret []
  | (_, value) :: entries' =>
      pinyin_text <- py_get value (lit "text") (JStr []) ;;
      match pinyin_text with
      | JStr s =>
          match re_search_paren s with
          | Some g => ret g
          | None => pinyin_loop entries'
          end
      | _ => raise TypeError
      end
  end.

(** Lines 114-119: the first entry whose key is not ["name"]. *)
Fixpoint hanzi_loop (entries : list (str * json)) : M str :=
  match entries with
  | [] => ret []
  | (field_id, field_data) :: entries' =>
      if negb (str_eqb field_id (lit "name")) then
        field_value <- py_get field_data (lit "value") (JStr []) ;;
        match field_value with
        | JStr s => ret (strip (re_sub_V s))
        | _ => raise TypeError
        end
      else hanzi_loop entries'
  end.

(** Lines 122-129. *)
Definition extract_meaning (card : json) : M json :=
  meaning <- py_get card (lit "name") (JStr []) ;;
  if negb (truthy meaning) then
    cc <- py_get card (lit "component-cache") (JObj []) ;;
    translate_cache <- py_get cc (lit "translate") (JObj []) ;;
    entries <- py_items translate_cache ;;
    match entries with
    | (key, _) :: _ => ret (JStr key)
    | [] => ret meaning
    end
  else ret meaning.

(** Lines 132-134. *)
Definition extract_added (card : json) : M json :=
  ca <- py_get card (lit "created-at") (JObj []) ;;
  created_at <- py_get ca (lit "date") (JStr []) ;;
  if truthy created_at then
    match created_at with
    | JStr s =>
        match fromisoformat_strftime (replace_Z s) with
        | Some t => ret (JStr t)
        | None => raise ValueError
        end
    | _ => raise AttributeError
    end
  else ret created_at.

(** Lines 100-134, the body of the [try] up to the decision. *)
Definition extract (card : json) : M ParsedRecord :=
  cc <- py_get card (lit "component-cache") (JObj []) ;;
  component_cache <- py_get cc (lit "pinyin") (JObj []) ;;
  entries <- py_items component_cache ;;
  pinyin <- pinyin_loop entries ;;
  fields <- py_get card (lit "fields") (JObj []) ;;
  field_entries <- py_items fields ;;
  hanzi <- hanzi_loop field_entries ;;
  meaning <- extract_meaning card ;;
  created_at <- extract_added card ;;
  ret {| pinyin := pinyin; hanzi := hanzi; meaning := meaning; added := created_at |}.

(** [not pinyin and not hanzi and not meaning]. *)
Definition all_missing (r : ParsedRecord) : bool :=
  is_empty (pinyin r) && is_empty (hanzi r) && negb (truthy (meaning r)).

(** The [print] of lines 138 and 148, whose line shows the card, followed
    by [return None]: the print raises when the dump of the card cannot be
    encoded, and nothing is printed then. *)
Definition report (m : message) (card : json)
  : M (option ParsedRecord) * list event :=
  if json_encodable card then (inr None, [EvPrint m])
  else (inl UnicodeEncodeError, []).

(** [parse_card]: the record or [None], or the exception of a print that
    failed (in the handler of line 147 nothing catches it), and what was
    printed. *)
Definition parse_card (card : json) : M (option ParsedRecord) * list event :=
  match extract card with
  | inr r =>
      if all_missing r then report (MsgSkipping card) card
      else (inr (Some r), [])
  | inl e => report (MsgErrorParsing e card) card
  end.

End Parser.

(** ** The HTTP script and the two fetch loops *)

(** A listing page as [response.json()] returns it for a body that follows
    the endpoints' schema: [data.get("docs", [])] and
    [data.get("bookmark")]. *)
Record page := {
  docs : list json;
  bookmark : option str
}.

(** What one [client.get(url)] does: it raises [httpx.ReadTimeout], raises
    another exception, or returns a response, whose [json()] raises when
    [body] is [None]. *)
Inductive http_result : Type :=
| ReadTimeout
| OtherFailure (info : str)
| Response (status_code : Z) (text : str) (body : option page).

Inductive outcome (R : Type) : Type :=
| Returned (r : R)
| Raised (e : exn)
| Awaiting (url : str) (attempt : nat).
Arguments Returned {R} r.
Arguments Raised {R} e.
Arguments Awaiting {R} url attempt.

(** A run of a fetch loop: what it did, how it ended and the part of the
    script it left. *)
Record run (R : Type) := {
  trace : list event;
  result : outcome R;
  rest : list http_result
}.
Arguments trace {R} r.
Arguments result {R} r.
Arguments rest {R} r.

Definition after {R : Type} (evs : list event) (r : run R) : run R :=
  {| trace := evs ++ trace r; result := result r; rest := rest r |}.

(** How one pass through the body of [for attempt in range(retries)]
    leaves it. *)
Inductive ctl (St R : Type) : Type :=
| CReturn (r : R)
| CRaise (e : exn)
| CBreak (st : St) (url : str)
| CNextAttempt.
Arguments CReturn {St R} r.
Arguments CRaise {St R} e.
Arguments CBreak {St R} st url.
Arguments CNextAttempt {St R}.

Definition retries : nat := 3.

(** The [except httpx.ReadTimeout] clause (lines 56-61 and 89-94). *)
Definition on_read_timeout {St R : Type} (op : endpoint) (attempt : nat)
  : list event * ctl St R :=
  if attempt <? retries - 1
  then ([EvPrint (MsgRetrying (attempt + 1) retries (2 ^ attempt));
         EvSleep (2 ^ attempt)], CNextAttempt)
  else ([], CRaise (TimedOutAfterRetries op)).

Section Loop.
Variables St R : Type.
(** The [try] body on the outcome of its [client.get(url)]. *)
Variable body : St -> str -> nat -> http_result -> list event * ctl St R.
(** The statement after the [while]. *)
Variable otherwise : St -> outcome R.

(** The loops [while url: for attempt in range(retries): try: ...] from
    the point where [client.get(url)] is called in attempt [attempt].
    After a [break] the [while] tests [url] again; a [for] that runs out
    of attempts falls back to the [while] as well. *)
Fixpoint fetch_loop (st : St) (url : str) (attempt : nat)
    (script : list http_result) : run R :=
  match script with
  | [] => {| trace := []; result := Awaiting url attempt; rest := [] |}
  | r :: script' =>
      let '(evs, c) := body st url attempt r in
      after (EvGet url :: evs)
        match c with
        | CReturn v => {| trace := []; result := Returned v; rest := script' |}
        | CRaise e => {| trace := []; result := Raised e; rest := script' |}
        | CBreak st' url' =>
            if is_empty url'
            then {| trace := []; result := otherwise st'; rest := script' |}
            else fetch_loop st' url' 0 script'
        | CNextAttempt =>
            if S attempt <? retries
            then fetch_loop st url (S attempt) script'
            else fetch_loop st url 0 script'
        end
  end.

Definition fetch (st : St) (url : str) (script : list http_result) : run R :=
  if is_empty url
  then {| trace := []; result := otherwise st; rest := script |}
  else fetch_loop st url 0 script.

End Loop.
Arguments fetch_loop {St R} body otherwise st url attempt script.
Arguments fetch {St R} body otherwise st url script.

Definition bookmark_truthy (b : option str) : bool :=
  match b with
  | Some s => negb (is_empty s)
  | None => false
  end.

Definition bookmark_text (b : option str) : str :=
  match b with
  | Some s => s
  | None => []
  end.

Section Fetching.
Context {rt : Runtime}.
Variable config : MochiConfig.

(** Lines 48-50: the scan of one page for the deck. *)
Fixpoint find_deck (deck_name : str) (decks : list json) : M (option json) :=
  match decks with
  | [] => ret None
  | deck :: decks' =>
      name <- py_index deck (lit "name") ;;
      match name with
      | JStr s =>
          if str_eqb (str_lower s) (str_lower deck_name)
          then id <- py_index deck (lit "id") ;; ret (Some id)
          else find_deck deck_name decks'
      | _ => raise AttributeError
      end
  end.

(** Lines 43-61. *)
Definition decks_try (deck_name : str) (_ : unit) (url : str) (attempt : nat)
    (r : http_result) : list event * ctl unit json :=
  match r with
  | ReadTimeout => on_read_timeout Decks attempt
  | OtherFailure info => ([], CRaise (TransportError info))
  | Response status_code text body =>
      if negb (Z.eqb status_code 200)
      then ([], CRaise (FailedToFetch Decks status_code text))
      else
        match body with
        | None => ([], CRaise JSONDecodeError)
        | Some data =>
            match find_deck deck_name (docs data) with
            | inl e => ([], CRaise e)
            | inr (Some id) => ([], CReturn id)
            | inr None =>
                if negb (bookmark_truthy (bookmark data)) || is_empty (docs data)
                then ([], CBreak tt url)
                else ([], CBreak tt (api_base_url config ++ lit "/decks?bookmark="
                                       ++ bookmark_text (bookmark data)))
            end
        end
  end.

(** [get_deck_id], lines 33-62. *)
Definition get_deck_id (deck_name : str) (script : list http_result) : run json :=
  fetch (decks_try deck_name)
        (fun _ => Raised (DeckNotFound deck_name))
        tt (api_base_url config ++ lit "/decks") script.

(** Lines 75-94; the state of the loop is the list [cards]. *)
Definition cards_try (cards : list json) (url : str) (attempt : nat)
    (r : http_result) : list event * ctl (list json) (list json) :=
  match r with
  | ReadTimeout => on_read_timeout Cards attempt
  | OtherFailure info => ([], CRaise (TransportError info))
  | Response status_code text body =>
      if negb (Z.eqb status_code 200)
      then ([], CRaise (FailedToFetch Cards status_code text))
      else
        match body with
        | None => ([], CRaise JSONDecodeError)
        | Some data =>
            let page_cards := docs data in
            let cards' := cards ++ page_cards in
            ([EvPrint (MsgFetchedPage (length page_cards))],
             if is_empty page_cards then CReturn cards'
             else if negb (bookmark_truthy (bookmark data)) then CReturn cards'
             else CBreak cards' (api_base_url config ++ lit "/cards?bookmark="
                                   ++ bookmark_text (bookmark data)
                                   ++ lit "&limit=100"))
        end
  end.

(** [get_cards], lines 64-95. *)
Definition get_cards (deck_id : json) (script : list http_result)
  : run (list json) :=
  fetch cards_try (fun cards => Returned cards) []
        (api_base_url config ++ lit "/cards?deck-id=" ++ py_format deck_id
           ++ lit "&limit=100")
        script.

End Fetching.

(** ** The writer *)

(** The file system: the text stored at each path. *)
Definition fs := str -> option str.

(** The file at [path] after [open(path, "w")], writes that put [content]
    into it, and the close at the end of the [with]. *)
Definition fs_write (path content : str) (files : fs) : fs :=
  fun p => if str_eqb p path then Some content else files p.

(** The [f.write] calls of a [with] block, in order: a text that cannot be
    encoded raises and nothing of it is written; the texts before it are
    in the file when the block is left. *)
Fixpoint write_all (texts : list str) : str * M unit :=
  match texts with
  | [] => ([], inr tt)
  | t :: texts' =>
      if encodable t
      then let '(written, res) := write_all texts' in (t ++ written, res)
      else ([], inl UnicodeEncodeError)
  end.

Section Writing.
Context {rt : Runtime}.
Variable config : MochiConfig.

(** Lines 153-157: the loop ends on the first card whose [parse_card]
    raises. *)
Fixpoint valid_cards (cards : list json) : M (list ParsedRecord) * list event :=
  match cards with
  | [] => (inr [], [])
  | card :: cards' =>
      match parse_card card with
      | (inl e, evs) => (inl e, evs)
      | (inr parsed, evs) =>
          let '(res, evs') := valid_cards cards' in
          (match res with
           | inr valid =>
               inr (match parsed with Some r => r :: valid | None => valid end)
           | inl e => inl e
           end, evs ++ evs')
      end
  end.

(** Lines 161-164: the four texts written for a record, one [f.write]
    each. *)
Definition record_writes (r : ParsedRecord) : list str :=
  [lit "Pinyin: " ++ pinyin r ++ [ch_newline];
   lit "Hanzi: " ++ hanzi r ++ [ch_newline];
   lit "Meaning: " ++ py_format (meaning r) ++ [ch_newline];
   lit "Added: " ++ py_format (added r) ++ [ch_newline]].

(** Lines 161-164: the four lines of a record, as one text. *)
Definition record_text (r : ParsedRecord) : str :=
  (lit "Pinyin: " ++ pinyin r ++ [ch_newline])
  ++ (lit "Hanzi: " ++ hanzi r ++ [ch_newline])
  ++ (lit "Meaning: " ++ py_format (meaning r) ++ [ch_newline])
  ++ (lit "Added: " ++ py_format (added r) ++ [ch_newline]).

Definition separator : str := lit "---".

(** Lines 160-166: [for i, parsed in enumerate(valid_cards, 1)], from
    index [i], [total] being [len(valid_cards)]. *)
Fixpoint write_records (i total : nat) (records : list ParsedRecord) : str :=
  match records with
  | [] => []
  | r :: records' =>
      record_text r
      ++ (if i <? total then separator ++ [ch_newline] else [])
      ++ write_records (S i) total records'
  end.

(** The text the loop sends to the file when every write succeeds. *)
Definition file_text (valid : list ParsedRecord) : str :=
  write_records 1 (length valid) valid.

(** The same loop, as the list of its [f.write] calls. *)
Fixpoint writes_from (i total : nat) (records : list ParsedRecord) : list str :=
  match records with
  | [] => []
  | r :: records' =>
      record_writes r
      ++ (if i <? total then [separator ++ [ch_newline]] else [])
      ++ writes_from (S i) total records'
  end.

Definition file_writes (valid : list ParsedRecord) : list str :=
  writes_from 1 (length valid) valid.

(** [write_vocab_to_file], lines 151-168: what it printed, whether it
    returned or raised, and the files it leaves.  An exception of
    [parse_card] leaves before the file is opened; when [open] raises
    nothing is written; an exception of a write leaves the file with what
    was written before it, and the last line is not printed. *)
Definition write_vocab_to_file (cards : list json) (files : fs)
  : (list event * M unit) * fs :=
  match valid_cards cards with
  | (inl e, evs) => ((evs, inl e), files)
  | (inr valid, evs) =>
      match open_for_writing (output_file config) with
      | Some e => ((evs, inl e), files)
      | None =>
          let '(written, res) := write_all (file_writes valid) in
          let files1 := fs_write (output_file config) written files in
          match res with
          | inl e => ((evs, inl e), files1)
          | inr _ =>
              ((evs ++ [EvPrint (MsgWrote (length valid) (output_file config))],
                inr tt), files1)
          end
      end
  end.

End Writing.

(** ** The process: configuration, [main], exit status *)

Inductive ending : Type :=
| Finished
| Blocked (url : str) (attempt : nat)
| Uncaught (e : exn).

Record process := {
  output : list event;
  files : fs;
  final : ending
}.


(** The settings as pydantic-settings finds them in the environment and
    [.env] under the prefix [MOCHI_]. *)
Record environment := {
  env_api_key : option str;
  env_api_base_url : option str;
  env_deck_name : option str;
  env_output_file : option str
}.

Definition or_default (o : option str) (d : str) : str :=
  match o with Some s => s | None => d end.

(** [s[-n:]]. *)
Definition last_chars (n : nat) (s : str) : str := skipn (length s - n) s.

(** Lines 15-31: [MochiConfig()] fails without an API key, and the handler
    raises the configuration error in its place. *)
Definition load_config (env : environment) : M MochiConfig * list event :=
  match env_api_key env with
  | None => (raise ConfigurationError, [])
  | Some key =>
      (ret {| api_key := key;
              api_base_url := or_default (env_api_base_url env)
                                (lit "https://app.mochi.cards/api");
              deck_name := or_default (env_deck_name env) (lit "Chinese");
              output_file := or_default (env_output_file env)
                               (lit "chinese_vocab.txt") |},
       [EvPrint (MsgLoadedKey (firstn 4 key) (last_chars 4 key))])
  end.

Section Main.
Context {rt : Runtime}.

(** [main], lines 170-191: every exception of the body ends in the
    handler, which prints it. *)
Definition main (config : MochiConfig) (script : list http_result)
    (files0 : fs) : process :=
  let r1 := get_deck_id config (deck_name config) script in
  let out1 := EvPrint (MsgFetchingDeck (deck_name config)) :: trace r1 in
  match result r1 with
  | Awaiting url attempt =>
      {| output := out1; files := files0; final := Blocked url attempt |}
  | Raised e =>
      {| output := out1 ++ [EvPrint (MsgError e)]; files := files0;
         final := Finished |}
  | Returned deck_id =>
      let r2 := get_cards config deck_id (rest r1) in
      let out2 := out1 ++ EvPrint MsgFetchingCards :: trace r2 in
      match result r2 with
      | Awaiting url attempt =>
          {| output := out2; files := files0; final := Blocked url attempt |}
      | Raised e =>
          {| output := out2 ++ [EvPrint (MsgError e)]; files := files0;
             final := Finished |}
      | Returned cards =>
          let out3 := out2 ++ [EvPrint (MsgFound (length cards))] in
          if is_empty cards
          then {| output := out3 ++ [EvPrint MsgNoCards]; files := files0;
                  final := Finished |}
          else
            let '((evs, res), files1) := write_vocab_to_file config cards files0 in
            let last := match res with
                        | inr _ => MsgExported (output_file config)
                        | inl e => MsgError e
                        end in
            {| output := out3 ++ EvPrint (MsgWriting (output_file config)) :: evs
                           ++ [EvPrint last];
               files := files1; final := Finished |}
      end
  end.

(** The module run as a script: the configuration is loaded while the
    module body executes, outside any handler, and [main()] is called at
    its end. *)
Definition script_run (env : environment) (script : list http_result)
    (files0 : fs) : process :=
  match load_config env with
  | (inl e, evs) => {| output := evs; files := files0; final := Uncaught e |}
  | (inr config, evs) =>
      let p := main config script files0 in
      {| output := evs ++ output p; files := files p; final := final p |}
  end.

End Main.

(** ** Reading a vocabulary file back

    The reader of the round-trip property: the text is cut into lines,
    the lines into blocks at each line [---], and a block of four labelled
    lines gives back its four values. *)

Fixpoint split_lines (s : str) : list str :=
  match s with
  | [] => []
  | c :: s' =>
      if N.eqb c ch_newline then [] :: split_lines s'
      else match split_lines s' with
           | [] => [[c]]
           | l :: ls => (c :: l) :: ls
           end
  end.

Fixpoint split_blocks (ls : list str) : list (list str) :=
  match ls with
  | [] => [[]]
  | l :: ls' =>
      if str_eqb l separator then [] :: split_blocks ls'
      else match split_blocks ls' with
           | [] => [[l]]
           | b :: bs => (l :: b) :: bs
           end
  end.

Definition blocks_of (text : str) : list (list str) :=
  match split_lines text with
  | [] => []
  | ls => split_blocks ls
  end.

Fixpoint strip_prefix (p s : str) : option str :=
  match p, s with
  | [], _ => Some s
  | x :: p', y :: s' => if N.eqb x y then strip_prefix p' s' else None
  | _ :: _, [] => None
  end.

Definition fields : Type := str * str * str * str.

Definition read_block (b : list str) : option fields :=
  match b with
  | [l1; l2; l3; l4] =>
      match strip_prefix (lit "Pinyin: ") l1, strip_prefix (lit "Hanzi: ") l2,
            strip_prefix (lit "Meaning: ") l3, strip_prefix (lit "Added: ") l4 with
      | Some p, Some h, Some m, Some a => Some (p, h, m, a)
      | _, _, _, _ => None
      end
  | _ => None
  end.

Fixpoint read_blocks (bs : list (list str)) : option (list fields) :=
  match bs with
  | [] => Some []
  | b :: bs' =>
      match read_block b, read_blocks bs' with
      | Some f, Some fs => Some (f :: fs)
      | _, _ => None
      end
  end.

Definition read_file (text : str) : option (list fields) :=
  read_blocks (blocks_of text).

(** The four values of a record as the file shows them. *)
Definition fields_of {rt : Runtime} (r : ParsedRecord) : fields :=
  (pinyin r, hanzi r, py_format (meaning r), py_format (added r)).

Definition no_newline (s : str) : Prop := ~ In ch_newline s.

Definition single_line_fields (f : fields) : Prop :=
  let '(p, h, m, a) := f in
  no_newline p /\ no_newline h /\ no_newline m /\ no_newline a.

Definition encodable_fields (f : fields) : Prop :=
  let '(p, h, m, a) := f in
  encodable p = true /\ encodable h = true
  /\ encodable m = true /\ encodable a = true.

(** ** Requests *)

Fixpoint requests (evs : list event) : list str :=
  match evs with
  | [] => []
  | EvGet url :: evs' => url :: requests evs'
  | _ :: evs' => requests evs'
  end.

Fixpoint sleeps (evs : list event) : list nat :=
  match evs with
  | [] => []
  | EvSleep n :: evs' => n :: sleeps evs'
  | _ :: evs' => sleeps evs'
  end.

(** [s] occurs in [url] as a substring. *)
Fixpoint starts_with (p s : str) : bool :=
  match p, s with
  | [], _ => true
  | x :: p', y :: s' => N.eqb x y && starts_with p' s'
  | _ :: _, [] => false
  end.

Fixpoint contains (p s : str) : bool :=
  starts_with p s || match s with [] => false | _ :: s' => contains p s' end.

(** The query of a URL: what follows the first ['?'], cut at each ['&']
    into [key=value] pairs. *)
Fixpoint split_at (sep : char) (s : str) : list str :=
  match s with
  | [] => [[]]
  | c :: s' =>
      if N.eqb c sep then [] :: split_at sep s'
      else match split_at sep s' with
           | [] => [[c]]
           | l :: ls => (c :: l) :: ls
           end
  end.

Definition key_value (s : str) : str * str :=
  (take_while (fun c => negb (N.eqb c 61%N)) s,
   tl (drop_while (fun c => negb (N.eqb c 61%N)) s)).

Definition query_params (url : str) : list (str * str) :=
  match drop_while (fun c => negb (N.eqb c 63%N)) url with
  | [] => []
  | _ :: q => map key_value (split_at 38%N q)
  end.

(** The query parameter [key] of [url]. *)
Definition query_param (key url : str) : option str := assoc key (query_params url).

(** ** A runtime and inputs for the examples

    [example_runtime] agrees with Python on what the examples use: it
    lower-cases the ASCII letters, reformats a timestamp written
    [YYYY-MM-DDTHH:MM:SS+00:00], shows [None], [True] and [False], and opens
    every path but the empty one. *)

Definition ascii_lower (s : str) : str :=
  map (fun c => if ((65 <=? c) && (c <=? 90))%N then (c + 32)%N else c) s.

Definition is_digit (c : char) : bool := ((48 <=? c) && (c <=? 57))%N.

(** [pattern] reads ['d'] for a digit and any other character for itself. *)
Fixpoint follows (pattern s : str) : bool :=
  match pattern, s with
  | [], [] => true
  | p :: pattern', c :: s' =>
      (if N.eqb p 100%N then is_digit c else N.eqb p c) && follows pattern' s'
  | _, _ => false
  end.

Definition iso_seconds_utc (s : str) : option str :=
  if follows (lit "dddd-dd-ddTdd:dd:dd+00:00") s
  then Some (firstn 10 s ++ lit " " ++ firstn 8 (skipn 11 s))
  else None.

Definition repr_constant (j : json) : str :=
  match j with
  | JNull => lit "None"
  | JBool true => lit "True"
  | JBool false => lit "False"
  | _ => []
  end.

Definition example_runtime : Runtime :=
  {| str_lower := ascii_lower;
     fromisoformat_strftime := iso_seconds_utc;
     py_repr := repr_constant;
     open_for_writing :=
       fun path => if is_empty path then Some (OSError (lit "No such file or directory"))
                   else None |}.

Definition example_env : environment :=
  {| env_api_key := Some (lit "0123456789abcdef");
     env_api_base_url := None;
     env_deck_name := None;
     env_output_file := None |}.

Definition example_config : MochiConfig :=
  {| api_key := lit "0123456789abcdef";
     api_base_url := lit "https://app.mochi.cards/api";
     deck_name := lit "Chinese";
     output_file := lit "chinese_vocab.txt" |}.


Definition no_files : fs := fun _ => None.

(** A 200 response: its text and the page its JSON body holds. *)
Definition ok (reply : str * page) : http_result :=
  Response 200 (fst reply) (Some (snd reply)).

(** A page after which the fetcher asks for no other: no cards, or no
    bookmark to follow. *)
Definition last_page (p : page) : bool :=
  is_empty (docs p) || negb (bookmark_truthy (bookmark p)).

(** Blocks joined by a separator line. *)
Fixpoint join_blocks (blocks : list str) : str :=
  match blocks with
  | [] => []
  | [b] => b
  | b :: blocks' => b ++ (separator ++ [ch_newline]) ++ join_blocks blocks'
  end.

(** The four lines of a record, and the lines of a file of records. *)
Definition record_lines {rt : Runtime} (r : ParsedRecord) : list str :=
  [lit "Pinyin: " ++ pinyin r; lit "Hanzi: " ++ hanzi r;
   lit "Meaning: " ++ py_format (meaning r); lit "Added: " ++ py_format (added r)].

Fixpoint all_lines {rt : Runtime} (records : list ParsedRecord) : list str :=
  match records with
  | [] => []
  | [r] => record_lines r
  | r :: records' => record_lines r ++ separator :: all_lines records'
  end.

Definition unlines (ls : list str) : str :=
  concat (map (fun l => l ++ [ch_newline]) ls).

(** A card whose name has a line [---] in it, and the record it parses
    to. *)
Definition multiline_name : str :=
  lit "c" ++ [ch_newline] ++ lit "---" ++ [ch_newline] ++ lit "d".

Definition multiline_card : json := JObj [(lit "name", JStr multiline_name)].

Definition multiline_record : ParsedRecord :=
  {| pinyin := []; hanzi := []; meaning := JStr multiline_name; added := JStr [] |}.

(** A record with empty values and the separator inside a line. *)
Definition one_line_record : ParsedRecord :=
  {| pinyin := []; hanzi := []; meaning := JStr (lit "c --- d"); added := JStr [] |}.

(** The pieces of a field value between its [V]s, each trimmed, glued. *)
Definition trimmed_pieces (value : str) : str :=
  concat (map strip (split_at ch_V value)).

(** The pieces glued as [re.sub] leaves them: a piece loses the whitespace
    on the side where a [V] was.  [glue_after] is for pieces that follow
    a [V]. *)
Fixpoint glue_after (pieces : list str) : str :=
  match pieces with
  | [] => []
  | [x] => lstrip x
  | x :: pieces' => strip x ++ glue_after pieces'
  end.

Definition glue_first (pieces : list str) : str :=
  match pieces with
  | [] => []
  | [x] => x
  | x :: pieces' => rstrip x ++ glue_after pieces'
  end.

(** An exception other than the one that names the deck. *)
Definition not_a_missing_deck (e : exn) : Prop :=
  match e with DeckNotFound _ => False | _ => True end.

(** The first entry of a dict whose key is not ["name"]. *)
Definition first_other_field (entries : list (str * json)) : option (str * json) :=
  find (fun kv => negb (str_eqb (fst kv) (lit "name"))) entries.

Definition deck (name id : string) : json :=
  JObj [(lit "id", JStr (lit id)); (lit "name", JStr (lit name))].

(** The only page of a listing without the deck [Chinese]. *)
Definition other_deck_page : page :=
  {| docs := [deck "Other" "d1"]; bookmark := None |}.

Definition decks_url : str := lit "https://app.mochi.cards/api/decks".

(** A card with the single field [f1] holding [value] and the given name. *)
Definition card_with (value name : string) : json :=
  JObj [(lit "fields", JObj [(lit "name", JObj [(lit "value", JStr (lit "x"))]);
                             (lit "f1", JObj [(lit "value", JStr (lit value))])]);
        (lit "name", JStr (lit name))].

(** The card of the design document's example; U+6CA1 is the hanzi and
    U+00E9 the letter with the tone mark. *)
Definition example_card : json :=
  JObj [(lit "component-cache",
          JObj [(lit "pinyin",
                  JObj [(lit "a",
                          JObj [(lit "text",
                                  JStr (lit "{" ++ [27809%N] ++ lit "}(m" ++ [233%N]
                                          ++ lit "i) {V}(V)"))])])]);
        (lit "fields", JObj [(lit "name", JObj [(lit "value", JStr (lit "x"))]);
                             (lit "f1", JObj [(lit "value", JStr (27809%N :: lit " V"))])]);
        (lit "name", JStr (lit "not"));
        (lit "created-at", JObj [(lit "date", JStr (lit "2023-01-01T10:00:00Z"))])].

(** The record the design document gives for it. *)
Definition example_record : ParsedRecord :=
  {| pinyin := lit "m" ++ [233%N] ++ lit "i";
     hanzi := [27809%N];
     meaning := JStr (lit "not");
     added := JStr (lit "2023-01-01 10:00:00") |}.

(** A first page of cards with a bookmark, and a last page. *)
Definition first_cards_page : str * page :=
  (lit "{...}", {| docs := [example_card]; bookmark := Some (lit "b2") |}).

Definition last_cards_page : str * page :=
  (lit "{...}", {| docs := [card_with "TV" "television"]; bookmark := None |}).

Definition cards_url : str :=
  lit "https://app.mochi.cards/api/cards?deck-id=D1&limit=100".

(** A card whose [fields] is a list: [fields.items()] raises. *)
Definition malformed_card : json :=
  JObj [(lit "fields", JArr []); (lit "name", JStr (lit "broken"))].


(** A record whose hanzi is a lone surrogate. *)
Definition surrogate_record : ParsedRecord :=
  {| pinyin := lit "a"; hanzi := [55296%N]; meaning := JStr (lit "b");
     added := JStr [] |}.

(** A card with nothing to extract. *)
Definition blank_card : json :=
  JObj [(lit "component-cache", JObj []); (lit "fields", JObj []);
        (lit "name", JStr [])].

(** ** Notions for the properties of the whole code *)

(** [suffix] ends [s]. *)
Definition ends_with (suffix s : str) : bool := starts_with (rev suffix) (rev s).

(** A script in which each answer comes after a number of read timeouts. *)
Definition with_timeouts (answers : list (nat * http_result)) : list http_result :=
  flat_map (fun kr => repeat ReadTimeout (fst kr) ++ [snd kr]) answers.

(** An entry of a decks page that is a deck of another name, and one that
    is the deck looked for, with its id. *)
Definition other_deck {rt : Runtime} (name : str) (d : json) : Prop :=
  exists n, py_index d (lit "name") = inr (JStr n)
            /\ str_lower n <> str_lower name.

Definition named_deck {rt : Runtime} (name : str) (id d : json) : Prop :=
  exists n, py_index d (lit "name") = inr (JStr n)
            /\ str_lower n = str_lower name
            /\ py_index d (lit "id") = inr id.

(** A decks page without the deck and with a bookmark to follow. *)
Definition passed_page {rt : Runtime} (name : str) (reply : str * page) : Prop :=
  Forall (other_deck name) (docs (snd reply)) /\ last_page (snd reply) = false.

(** The URLs a fetch function may request, and the sleeps it may take. *)
Definition decks_request (config : MochiConfig) (url : str) : Prop :=
  starts_with (api_base_url config ++ lit "/decks") url = true.

Definition cards_request (config : MochiConfig) (url : str) : Prop :=
  starts_with (api_base_url config ++ lit "/cards?") url = true
  /\ ends_with (lit "&limit=100") url = true.

Definition allowed_event (allowed : str -> Prop) (e : event) : Prop :=
  match e with
  | EvGet url => allowed url
  | EvSleep n => n = 1 \/ n = 2
  | EvPrint _ => True
  end.

(** [g] stands between parentheses somewhere in [t]. *)
Definition has_group (t g : str) : Prop :=
  exists pre post, t = pre ++ ch_lparen :: g ++ ch_rparen :: post.

(** The text of an entry of the pinyin cache. *)
Definition entry_text (value : json) (t : str) : Prop :=
  py_get value (lit "text") (JStr []) = inr (JStr t).

(** A card with a name and a creation date that is no timestamp. *)
Definition card_dated (name date : string) : json :=
  JObj [(lit "name", JStr (lit name));
        (lit "created-at", JObj [(lit "date", JStr (lit date))])].

(** A card without name whose translation cache has a key. *)
Definition card_translated : json :=
  JObj [(lit "component-cache",
          JObj [(lit "translate", JObj [(lit "did not V", JObj [])])]);
        (lit "name", JStr [])].

(** A decks page with an entry that has no name before the deck. *)
Definition nameless_deck_page : str * page :=
  ([], {| docs := [deck "Other" "d1"; JObj [(lit "id", JStr (lit "d0"))];
                   deck "Chinese" "d2"];
          bookmark := None |}).

Definition first_decks_page : str * page :=
  ([], {| docs := [deck "Other" "d1"]; bookmark := Some (lit "b2") |}).

Definition chinese_decks_page : str * page :=
  ([], {| docs := [deck "Other" "d3"; deck "CHINESE" "d2"; deck "chinese" "d4"];
          bookmark := Some (lit "b3") |}).

(** * Properties *)

(** ** Strings and runs *)

Lemma str_eqb_refl (a : str) : str_eqb a a = true.
Proof.
  induction a as [|x a IH]; simpl; [reflexivity|].
  now rewrite N.eqb_refl, IH.
Qed.

Lemma str_eqb_eq (a b : str) : str_eqb a b = true <-> a = b.
Proof.
  split; [|intros ->; apply str_eqb_refl].
  revert b; induction a as [|x a IH]; intros [|y b]; simpl; try discriminate; auto.
  intros H. apply andb_true_iff in H as [Hx Hr].
  apply N.eqb_eq in Hx. apply IH in Hr. congruence.
Qed.

Lemma is_empty_app_r {A : Type} (a b : list A) :
  is_empty b = false -> is_empty (a ++ b) = false.
Proof. destruct a, b; simpl; congruence. Qed.

Lemma after_nil {R : Type} (r : run R) : after [] r = r.
Proof. now destruct r. Qed.

Lemma after_after {R : Type} (e1 e2 : list event) (r : run R) :
  after e1 (after e2 r) = after (e1 ++ e2) r.
Proof. unfold after; simpl. now rewrite app_assoc. Qed.

Section LoopFacts.
Variables St R : Type.
Variable body : St -> str -> nat -> http_result -> list event * ctl St R.
Variable otherwise : St -> outcome R.
Hypothesis otherwise_ends : forall st url attempt, otherwise st <> Awaiting url attempt.

(** A run that ends awaiting a request goes on from there when the script
    is made longer. *)
Lemma fetch_loop_app (pre : list http_result) :
  forall st url attempt url' attempt',
    result (fetch_loop body otherwise st url attempt pre) = Awaiting url' attempt' ->
    exists st',
      forall post,
        fetch_loop body otherwise st url attempt (pre ++ post)
        = after (trace (fetch_loop body otherwise st url attempt pre))
                (fetch_loop body otherwise st' url' attempt' post).
Proof.
  induction pre as [|r pre IH]; intros st url attempt url' attempt' H.
  - simpl in H. injection H as <- <-. exists st. intros post.
    simpl. now rewrite after_nil.
  - simpl in H |- *. destruct (body st url attempt r) as [evs c].
    destruct c as [v|e|st1 url1|]; simpl in H; try discriminate.
    + destruct (is_empty url1).
      * simpl in H. now apply otherwise_ends in H.
      * apply IH in H as [st' H]. exists st'. intros post.
        rewrite H, after_after. reflexivity.
    + destruct (S attempt <? retries);
        (apply IH in H as [st' H]; exists st'; intros post;
         rewrite H, after_after; reflexivity).
Qed.

(** The same for the whole function, entered at a URL that is not empty. *)
Lemma fetch_app (pre : list http_result) st url url' attempt' :
  result (fetch body otherwise st url pre) = Awaiting url' attempt' ->
  exists st',
    forall post,
      fetch body otherwise st url (pre ++ post)
      = after (trace (fetch body otherwise st url pre))
              (fetch_loop body otherwise st' url' attempt' post).
Proof.
  unfold fetch. destruct (is_empty url).
  - simpl. intros H. now apply otherwise_ends in H.
  - apply fetch_loop_app.
Qed.

End LoopFacts.

(** ** The two fetch functions *)

Section FetchFacts.
Context {rt : Runtime}.
Variable config : MochiConfig.

Lemma decks_url_not_empty : is_empty (api_base_url config ++ lit "/decks") = false.
Proof. now apply is_empty_app_r. Qed.

Lemma cards_url_not_empty (deck_id : json) :
  is_empty (api_base_url config ++ lit "/cards?deck-id=" ++ py_format deck_id
              ++ lit "&limit=100") = false.
Proof. now apply is_empty_app_r. Qed.

Lemma get_deck_id_app (name : str) (pre : list http_result) url attempt :
  result (get_deck_id config name pre) = Awaiting url attempt ->
  forall post,
    get_deck_id config name (pre ++ post)
    = after (trace (get_deck_id config name pre))
            (fetch_loop (decks_try config name)
               (fun _ => Raised (DeckNotFound name)) tt url attempt post).
Proof.
  intros H. apply fetch_app in H as [[] H]; [exact H|discriminate].
Qed.

Lemma get_cards_app (deck_id : json) (pre : list http_result) url attempt :
  result (get_cards config deck_id pre) = Awaiting url attempt ->
  exists cards,
    forall post,
      get_cards config deck_id (pre ++ post)
      = after (trace (get_cards config deck_id pre))
              (fetch_loop (cards_try config) (fun cards => Returned cards)
                 cards url attempt post).
Proof.
  intros H. apply fetch_app in H; [exact H|discriminate].
Qed.

(** C10. A response is accepted only with status 200.  Whenever the
    resolver or the fetcher has a request outstanding (in whichever
    attempt) and the answer carries any other status, 201 and 204 included,
    the function raises the error made of the status code and the response
    text: the request is issued once, nothing is slept, and nothing more of
    the script is read. *)
Theorem status_other_than_200_fails_at_once
    (name : str) (deck_id : json) (pre post : list http_result)
    (url : str) (attempt : nat) (status_code : Z) (text : str)
    (body : option page) :
  status_code <> 200%Z ->
  (result (get_deck_id config name pre) = Awaiting url attempt ->
   get_deck_id config name (pre ++ Response status_code text body :: post)
   = {| trace := trace (get_deck_id config name pre) ++ [EvGet url];
        result := Raised (FailedToFetch Decks status_code text);
        rest := post |})
  /\ (result (get_cards config deck_id pre) = Awaiting url attempt ->
      get_cards config deck_id (pre ++ Response status_code text body :: post)
      = {| trace := trace (get_cards config deck_id pre) ++ [EvGet url];
           result := Raised (FailedToFetch Cards status_code text);
           rest := post |}).
Proof.
  intros Hs. apply Z.eqb_neq in Hs. split; intros H.
  - rewrite (get_deck_id_app _ _ _ _ H). simpl. now rewrite Hs.
  - destruct (get_cards_app _ _ _ _ H) as [cards ->]. simpl. now rewrite Hs.
Qed.

(** Three read timeouts on a request that starts its attempts. *)
Lemma three_timeouts {St R : Type}
    (body : St -> str -> nat -> http_result -> list event * ctl St R)
    (otherwise : St -> outcome R) (op : endpoint) (st : St) (url : str)
    (post : list http_result) :
  (forall st url attempt, body st url attempt ReadTimeout = on_read_timeout op attempt) ->
  fetch_loop body otherwise st url 0 (ReadTimeout :: ReadTimeout :: ReadTimeout :: post)
  = {| trace := [EvGet url; EvPrint (MsgRetrying 1 3 1); EvSleep 1;
                 EvGet url; EvPrint (MsgRetrying 2 3 2); EvSleep 2;
                 EvGet url];
       result := Raised (TimedOutAfterRetries op);
       rest := post |}.
Proof. intros Hb. simpl. rewrite !Hb. reflexivity. Qed.

Lemma timeouts_keep_request {St R : Type}
    (body : St -> str -> nat -> http_result -> list event * ctl St R)
    (otherwise : St -> outcome R) (op : endpoint) (st : St) (url : str) :
  (forall st url attempt, body st url attempt ReadTimeout = on_read_timeout op attempt) ->
  result (fetch_loop body otherwise st url 0 [ReadTimeout]) = Awaiting url 1
  /\ result (fetch_loop body otherwise st url 0 [ReadTimeout; ReadTimeout])
     = Awaiting url 2.
Proof. intros Hb. simpl. rewrite !Hb. split; reflexivity. Qed.

(** C3, amended.  A request of the resolver or of the fetcher whose read
    times out is issued again, up to three attempts in all, after a sleep
    of [2 ^ attempt] seconds that follows every failed attempt but the
    last: one second after the first, two after the second, and none after
    the third, which raises the timeout error of the operation instead.
    So three read timeouts in a row make exactly three attempts at the
    same URL, with sleeps of 1 and 2 seconds between them, and then the
    error. *)
Theorem read_timeouts_are_retried_twice
    (name : str) (deck_id : json) (pre post : list http_result) (url : str) :
  (result (get_deck_id config name pre) = Awaiting url 0 ->
   result (get_deck_id config name (pre ++ [ReadTimeout])) = Awaiting url 1
   /\ result (get_deck_id config name (pre ++ [ReadTimeout; ReadTimeout]))
      = Awaiting url 2
   /\ get_deck_id config name
        (pre ++ ReadTimeout :: ReadTimeout :: ReadTimeout :: post)
      = {| trace := trace (get_deck_id config name pre)
                    ++ [EvGet url; EvPrint (MsgRetrying 1 3 1); EvSleep 1;
                        EvGet url; EvPrint (MsgRetrying 2 3 2); EvSleep 2;
                        EvGet url];
           result := Raised (TimedOutAfterRetries Decks);
           rest := post |})
  /\ (result (get_cards config deck_id pre) = Awaiting url 0 ->
      result (get_cards config deck_id (pre ++ [ReadTimeout])) = Awaiting url 1
      /\ result (get_cards config deck_id (pre ++ [ReadTimeout; ReadTimeout]))
         = Awaiting url 2
      /\ get_cards config deck_id
           (pre ++ ReadTimeout :: ReadTimeout :: ReadTimeout :: post)
         = {| trace := trace (get_cards config deck_id pre)
                       ++ [EvGet url; EvPrint (MsgRetrying 1 3 1); EvSleep 1;
                           EvGet url; EvPrint (MsgRetrying 2 3 2); EvSleep 2;
                           EvGet url];
              result := Raised (TimedOutAfterRetries Cards);
              rest := post |}).
Proof.
  split; intros H.
  - pose proof (get_deck_id_app _ _ _ _ H) as E.
    rewrite !E.
    destruct (timeouts_keep_request (decks_try config name)
                (fun _ => Raised (DeckNotFound name)) Decks tt url
                (fun _ _ _ => eq_refl)) as [H1 H2].
    split; [exact H1|]. split; [exact H2|].
    now rewrite (three_timeouts _ _ Decks tt url post (fun _ _ _ => eq_refl)).
  - destruct (get_cards_app _ _ _ _ H) as [cards E].
    rewrite !E.
    destruct (timeouts_keep_request (cards_try config)
                (fun cards => Returned cards) Cards cards url
                (fun _ _ _ => eq_refl)) as [H1 H2].
    split; [exact H1|]. split; [exact H2|].
    now rewrite (three_timeouts _ _ Cards cards url post (fun _ _ _ => eq_refl)).
Qed.

End FetchFacts.

Lemma requests_app (a b : list event) : requests (a ++ b) = requests a ++ requests b.
Proof.
  induction a as [|[url|n|m] a IH]; simpl; [reflexivity| |exact IH|exact IH].
  now rewrite IH.
Qed.

Lemma length_concat_docs (pages : list page) :
  length (concat (map docs pages))
  = list_sum (map (fun p => length (docs p)) pages).
Proof.
  induction pages as [|p pages IH]; simpl; [reflexivity|].
  now rewrite length_app, IH.
Qed.

Section CardPages.
Context {rt : Runtime}.
Variable config : MochiConfig.

(** What the fetcher does with a page that is not the last: the cards are
    appended and the bookmark is followed. *)
Lemma cards_try_continues (cards : list json) (url : str) (attempt : nat)
    (reply : str * page) :
  last_page (snd reply) = false ->
  cards_try config cards url attempt (ok reply)
  = ([EvPrint (MsgFetchedPage (length (docs (snd reply))))],
     CBreak (cards ++ docs (snd reply))
       (api_base_url config ++ lit "/cards?bookmark="
          ++ bookmark_text (bookmark (snd reply)) ++ lit "&limit=100")).
Proof.
  unfold last_page. intros H. apply orb_false_iff in H as [Hd Hb].
  apply negb_false_iff in Hb. unfold cards_try, ok.
  change (negb (200 =? 200)%Z) with false. cbv iota.
  now rewrite Hd, Hb.
Qed.

(** And with the last one: the cards are appended and returned. *)
Lemma cards_try_returns (cards : list json) (url : str) (attempt : nat)
    (reply : str * page) :
  last_page (snd reply) = true ->
  cards_try config cards url attempt (ok reply)
  = ([EvPrint (MsgFetchedPage (length (docs (snd reply))))],
     CReturn (cards ++ docs (snd reply))).
Proof.
  unfold last_page. intros H. unfold cards_try, ok.
  change (negb (200 =? 200)%Z) with false. cbv iota.
  destruct (is_empty (docs (snd reply))); [reflexivity|].
  simpl in H. now rewrite H.
Qed.

Lemma cards_loop_pages (pages : list (str * page)) :
  forall (cards : list json) (url : str) (final : str * page)
         (more : list http_result),
    Forall (fun reply => last_page (snd reply) = false) pages ->
    last_page (snd final) = true ->
    let r := fetch_loop (cards_try config) (fun cards => Returned cards)
               cards url 0 (map ok pages ++ ok final :: more) in
    result r = Returned (cards ++ concat (map docs (map snd (pages ++ [final]))))
    /\ rest r = more
    /\ length (requests (trace r)) = S (length pages).
Proof.
  induction pages as [|p pages IH]; intros cards url final more Hp Hf.
  - cbn [map app fetch_loop]. rewrite (cards_try_returns _ _ _ _ Hf).
    cbn [result rest trace after map concat app requests length].
    now rewrite app_nil_r.
  - inversion Hp as [|? ? Hp1 Hp2]; subst.
    cbn [map app fetch_loop]. rewrite (cards_try_continues _ _ _ _ Hp1).
    rewrite is_empty_app_r by reflexivity.
    specialize (IH (cards ++ docs (snd p))
                  (api_base_url config ++ lit "/cards?bookmark="
                     ++ bookmark_text (bookmark (snd p)) ++ lit "&limit=100")
                  final more Hp2 Hf).
    cbv zeta in IH. destruct IH as (Hr & Hrest & Hn).
    cbv zeta. cbn [result rest trace after].
    rewrite Hr, Hrest. cbn [requests app length]. rewrite Hn.
    cbn [map concat]. now rewrite app_assoc.
Qed.

(** C7. For card pages served in order, all but the last with cards and a
    bookmark, and a last one with no cards or no bookmark, [get_cards]
    returns the concatenation of the pages' [docs], page after page and in
    the order of each page; the length of the result is the sum of the
    pages' lengths; each page is requested once and nothing after the last
    page is read.  A last page without cards adds nothing; a last page
    with cards and no bookmark is included. *)
Theorem get_cards_returns_pages_in_order
    (deck_id : json) (pages : list (str * page)) (final : str * page)
    (more : list http_result) :
  Forall (fun reply => last_page (snd reply) = false) pages ->
  last_page (snd final) = true ->
  let r := get_cards config deck_id (map ok pages ++ ok final :: more) in
  let served := map snd (pages ++ [final]) in
  result r = Returned (concat (map docs served))
  /\ length (concat (map docs served))
     = list_sum (map (fun p => length (docs p)) served)
  /\ rest r = more
  /\ length (requests (trace r)) = S (length pages)
  /\ (docs (snd final) = [] ->
      result r = Returned (concat (map docs (map snd pages)))).
Proof.
  intros Hp Hf r served.
  assert (H : result r = Returned (concat (map docs served))
              /\ rest r = more
              /\ length (requests (trace r)) = S (length pages)).
  { subst r served. unfold get_cards, fetch.
    rewrite cards_url_not_empty.
    exact (cards_loop_pages pages [] _ final more Hp Hf). }
  destruct H as (Hr & Hrest & Hn).
  split; [exact Hr|]. split; [apply length_concat_docs|].
  split; [exact Hrest|]. split; [exact Hn|].
  intros He. rewrite Hr. subst served.
  rewrite !map_app, concat_app. simpl. rewrite He. now rewrite !app_nil_r.
Qed.

End CardPages.

(** C4, at a deck of two pages.  The first request of [get_cards] carries
    the deck filter and the page size; the request that follows the
    bookmark carries the bookmark and the page size, and no [deck-id]. *)
Theorem continuation_request_has_no_deck_filter :
  let r := @get_cards example_runtime example_config (JStr (lit "D1"))
             [ok ([], {| docs := [example_card]; bookmark := Some (lit "b2") |});
              ok ([], {| docs := []; bookmark := None |})] in
  requests (trace r)
  = [lit "https://app.mochi.cards/api/cards?deck-id=D1&limit=100";
     lit "https://app.mochi.cards/api/cards?bookmark=b2&limit=100"]
  /\ map (query_param (lit "deck-id")) (requests (trace r))
     = [Some (lit "D1"); None]
  /\ map (query_param (lit "limit")) (requests (trace r))
     = [Some (lit "100"); Some (lit "100")]
  /\ map (contains (lit "deck-id")) (requests (trace r)) = [true; false].
Proof. vm_compute. repeat split. Qed.

Section DeckPages.
Context {rt : Runtime}.
Variable config : MochiConfig.

Lemma py_index_exn (d : json) (key : str) (e : exn) :
  py_index d key = inl e -> not_a_missing_deck e.
Proof.
  destruct d; simpl; try (intros [= <-]; exact I).
  destruct (assoc key members); [discriminate|]. intros [= <-]. exact I.
Qed.

Lemma find_deck_exn (name : str) (decks : list json) (e : exn) :
  find_deck name decks = inl e -> not_a_missing_deck e.
Proof.
  induction decks as [|d decks IH]; simpl; [discriminate|].
  destruct (py_index d (lit "name")) as [e1|v] eqn:E1.
  - intros [= <-]. eapply py_index_exn, E1.
  - destruct v; try (intros [= <-]; exact I).
    destruct (str_eqb (str_lower s) (str_lower name)); [|exact IH].
    destruct (py_index d (lit "id")) as [e2|v2] eqn:E2; [|discriminate].
    intros [= <-]. eapply py_index_exn, E2.
Qed.

(** The resolver never leaves its retry loop with an empty [url], and
    never raises the error of the statement after the [while] itself. *)
Lemma decks_try_keeps_url (name : str) (url : str) (attempt : nat)
    (r : http_result) :
  is_empty url = false ->
  match snd (decks_try config name tt url attempt r) with
  | CBreak _ url' => is_empty url' = false
  | CRaise e => not_a_missing_deck e
  | _ => True
  end.
Proof.
  intros Hu. destruct r as [|info|status_code text body]; simpl.
  - unfold on_read_timeout. now destruct (attempt <? retries - 1).
  - exact I.
  - destruct (negb (status_code =? 200)%Z); [exact I|].
    destruct body as [data|]; [|exact I].
    destruct (find_deck name (docs data)) as [e|[id|]] eqn:E; simpl.
    + eapply find_deck_exn, E.
    + exact I.
    + destruct (negb (bookmark_truthy (bookmark data)) || is_empty (docs data));
        simpl; [exact Hu|].
      now apply is_empty_app_r.
Qed.

Lemma decks_loop_never_not_found (name : str) (script : list http_result) :
  forall url attempt,
    is_empty url = false ->
    match result (fetch_loop (decks_try config name)
                    (fun _ => Raised (DeckNotFound name)) tt url attempt script) with
    | Raised e => not_a_missing_deck e
    | _ => True
    end.
Proof.
  induction script as [|r script IH]; intros url attempt Hu; [exact I|].
  simpl. pose proof (decks_try_keeps_url name url attempt r Hu) as Hc.
  destruct (decks_try config name tt url attempt r) as [evs c].
  simpl in Hc. destruct c as [v|e|[] url'|]; simpl.
  - exact I.
  - exact Hc.
  - rewrite Hc. now apply IH.
  - destruct (S attempt <? retries); now apply IH.
Qed.

End DeckPages.

Lemma repeat_decks_page (n : nat) :
  fetch_loop (@decks_try example_runtime example_config (lit "Chinese"))
    (fun _ => Raised (DeckNotFound (lit "Chinese"))) tt decks_url 0
    (repeat (ok ([], other_deck_page)) n)
  = {| trace := repeat (EvGet decks_url) n;
       result := Awaiting decks_url 0;
       rest := [] |}.
Proof.
  induction n as [|n IH]; [reflexivity|].
  cbn [repeat fetch_loop].
  change (@decks_try example_runtime example_config (lit "Chinese") tt decks_url 0
            (ok ([], other_deck_page)))
    with (@nil event, @CBreak unit json tt decks_url).
  change (is_empty decks_url) with false. cbv iota.
  rewrite IH. reflexivity.
Qed.

(** C1, where the code departs from it.  The error that names the deck is
    never raised: whatever the script, a run of [get_deck_id] that raises
    raises something else.  On a listing of one page, without bookmark and
    without the deck, the resolver asks for that page again each time it
    is answered: after [n] answers it has issued [n] requests for the same
    URL and is waiting for the answer to one more. *)
Theorem get_deck_id_asks_again_for_the_last_page :
  (forall (rt : Runtime) (config : MochiConfig) (name : str)
          (script : list http_result),
      match result (get_deck_id config name script) with
      | Raised e => not_a_missing_deck e
      | _ => True
      end)
  /\ (forall n : nat,
         @get_deck_id example_runtime example_config (lit "Chinese")
           (repeat (ok ([], other_deck_page)) n)
         = {| trace := repeat (EvGet decks_url) n;
              result := Awaiting decks_url 0;
              rest := [] |}).
Proof.
  split.
  - intros rt config name script. unfold get_deck_id, fetch.
    rewrite decks_url_not_empty. apply decks_loop_never_not_found.
    apply decks_url_not_empty.
  - intros n. unfold get_deck_id, fetch.
    change (is_empty (api_base_url example_config ++ lit "/decks")) with false.
    cbv iota. apply repeat_decks_page.
Qed.

(** ** The process *)

Section MainFacts.
Context {rt : Runtime}.

Lemma ends_with_last {A : Type} (l m : list A) (a z : A) :
  exists out, l ++ a :: m ++ [z] = out ++ [z].
Proof. exists (l ++ a :: m). now rewrite <- app_assoc. Qed.


Lemma script_run_loaded (env : environment) (config : MochiConfig)
    (script : list http_result) (files0 : fs) :
  fst (load_config env) = inr config ->
  files (script_run env script files0) = files (main config script files0)
  /\ final (script_run env script files0) = final (main config script files0)
  /\ output (script_run env script files0)
     = snd (load_config env) ++ output (main config script files0).
Proof.
  unfold script_run. destruct (load_config env) as [[e|c] evs]; simpl;
    [discriminate|].
  intros [= ->]. now repeat split.
Qed.


(** C9.  The files are what they were after every run that fails before
    the write step: on a configuration error, when deck resolution raises
    and when card fetching raises.  A run changes the files in one way
    only: both fetches returned, there were cards, and the files are those
    [write_vocab_to_file] leaves. *)
Theorem failure_before_the_write_leaves_the_files
    (env : environment) (script : list http_result) (files0 : fs) :
  let p := script_run env script files0 in
  (forall e, fst (load_config env) = inl e -> files p = files0)
  /\ (forall config e,
        fst (load_config env) = inr config ->
        result (get_deck_id config (deck_name config) script) = Raised e ->
        files p = files0)
  /\ (forall config deck_id e,
        fst (load_config env) = inr config ->
        result (get_deck_id config (deck_name config) script) = Returned deck_id ->
        result (get_cards config deck_id
                  (rest (get_deck_id config (deck_name config) script)))
        = Raised e ->
        files p = files0)
  /\ (files p = files0
      \/ exists config deck_id cards,
           fst (load_config env) = inr config
           /\ result (get_deck_id config (deck_name config) script)
              = Returned deck_id
           /\ result (get_cards config deck_id
                        (rest (get_deck_id config (deck_name config) script)))
              = Returned cards
           /\ cards <> []
           /\ files p = snd (write_vocab_to_file config cards files0)).
Proof.
  intros p. subst p.
  split; [|split; [|split]].
  - intros e E. unfold script_run.
    destruct (load_config env) as [[e'|c] evs]; simpl in E; [reflexivity|discriminate].
  - intros config e E E1.
    destruct (script_run_loaded env config script files0 E) as (-> & _).
    unfold main. cbv zeta. now rewrite E1.
  - intros config deck_id e E E1 E2.
    destruct (script_run_loaded env config script files0 E) as (-> & _).
    unfold main. cbv zeta. now rewrite E1, E2.
  - destruct (fst (load_config env)) as [e|config] eqn:E.
    + left. unfold script_run.
      destruct (load_config env) as [[e'|c] evs]; simpl in E;
        [reflexivity|discriminate].
    + destruct (script_run_loaded env config script files0 E) as (-> & _).
      unfold main. cbv zeta.
      destruct (result (get_deck_id config (deck_name config) script))
        as [deck_id|e1|url1 a1] eqn:E1; [|now left|now left].
      destruct (result (get_cards config deck_id
                          (rest (get_deck_id config (deck_name config) script))))
        as [cards|e2|url2 a2] eqn:E2; [|now left|now left].
      destruct cards as [|card cards]; [now left|].
      right. exists config, deck_id, (card :: cards).
      repeat (split; [first [reflexivity|assumption|discriminate]|]).
      cbn [is_empty].
      now destruct (write_vocab_to_file config (card :: cards) files0)
        as [[evs res] f1].
Qed.

End MainFacts.

(** ** Trimming and the substitution of [V] *)

Section Runs.
Variable A : Type.
Variable p : A -> bool.

Lemma take_drop_while (l : list A) : take_while p l ++ drop_while p l = l.
Proof.
  induction l as [|x l IH]; simpl; [reflexivity|].
  destruct (p x); simpl; [now rewrite IH|reflexivity].
Qed.

Lemma take_while_all (l : list A) : forallb p (take_while p l) = true.
Proof.
  induction l as [|x l IH]; simpl; [reflexivity|].
  destruct (p x) eqn:E; simpl; [now rewrite E|reflexivity].
Qed.

Lemma drop_while_head (l : list A) (c : A) (r : list A) :
  drop_while p l = c :: r -> p c = false.
Proof.
  induction l as [|x l IH]; simpl; [discriminate|].
  destruct (p x) eqn:E; [exact IH|]. now intros [= <- <-].
Qed.

Lemma drop_while_idem (l : list A) : drop_while p (drop_while p l) = drop_while p l.
Proof.
  induction l as [|x l IH]; simpl; [reflexivity|].
  destruct (p x) eqn:E; [exact IH|]. simpl. now rewrite E.
Qed.

Lemma drop_while_all (w : list A) (l : list A) :
  forallb p w = true -> drop_while p (w ++ l) = drop_while p l.
Proof.
  induction w as [|x w IH]; simpl; [reflexivity|].
  intros H. apply andb_true_iff in H as [Hx Hw]. now rewrite Hx, IH.
Qed.

Lemma take_while_all_stop (w : list A) (c : A) (l : list A) :
  forallb p w = true -> p c = false -> take_while p (w ++ c :: l) = w.
Proof.
  induction w as [|x w IH]; simpl; intros H Hc; [now rewrite Hc|].
  apply andb_true_iff in H as [Hx Hw]. now rewrite Hx, IH.
Qed.

Lemma drop_while_app (a b : list A) :
  drop_while p (a ++ b)
  = match drop_while p a with
    | [] => drop_while p b
    | y => y ++ b
    end.
Proof.
  induction a as [|x a IH]; simpl; [reflexivity|].
  destruct (p x); [exact IH|reflexivity].
Qed.

Lemma drop_while_nil_all (l : list A) : drop_while p l = [] -> forallb p l = true.
Proof.
  induction l as [|x l IH]; simpl; [reflexivity|].
  destruct (p x); [exact IH|discriminate].
Qed.

Lemma length_drop_while (l : list A) : length (drop_while p l) <= length l.
Proof.
  induction l as [|x l IH]; simpl; [lia|]. destruct (p x); simpl; lia.
Qed.

Lemma skipn_take_while (l : list A) :
  skipn (length (take_while p l)) l = drop_while p l.
Proof.
  induction l as [|x l IH]; simpl; [reflexivity|].
  destruct (p x); simpl; [exact IH|reflexivity].
Qed.

End Runs.
Arguments take_drop_while {A} p l.
Arguments take_while_all {A} p l.
Arguments drop_while_head {A} p l c r.
Arguments drop_while_idem {A} p l.
Arguments drop_while_all {A} p w l.
Arguments take_while_all_stop {A} p w c l.
Arguments drop_while_app {A} p a b.
Arguments drop_while_nil_all {A} p l.
Arguments length_drop_while {A} p l.
Arguments skipn_take_while {A} p l.

Lemma V_is_not_space : is_space ch_V = false.
Proof. reflexivity. Qed.

Lemma lstrip_idem (s : str) : lstrip (lstrip s) = lstrip s.
Proof. apply drop_while_idem. Qed.

Lemma lstrip_app (a b : str) :
  lstrip (a ++ b) = match lstrip a with [] => lstrip b | y => y ++ b end.
Proof. apply drop_while_app. Qed.

Lemma rstrip_nil_iff (s : str) : rstrip s = [] <-> drop_while is_space (rev s) = [].
Proof.
  unfold rstrip. split; intros H; [|now rewrite H].
  apply (f_equal (@rev char)) in H. now rewrite rev_involutive in H.
Qed.

Lemma rstrip_app (a b : str) :
  rstrip (a ++ b) = match rstrip b with [] => rstrip a | y => a ++ y end.
Proof.
  unfold rstrip at 1. rewrite rev_app_distr, drop_while_app.
  destruct (rstrip b) as [|y ys] eqn:E.
  - apply rstrip_nil_iff in E. now rewrite E.
  - unfold rstrip in E.
    destruct (drop_while is_space (rev b)) as [|z zs] eqn:F; [discriminate|].
    rewrite rev_app_distr, rev_involutive. now rewrite E.
Qed.

(** [rstrip] read from the left. *)
Lemma rstrip_cons (c : char) (s : str) :
  rstrip (c :: s)
  = match rstrip s with
    | [] => if is_space c then [] else [c]
    | y => c :: y
    end.
Proof.
  change (c :: s) with ([c] ++ s). rewrite rstrip_app.
  destruct (rstrip s); [|reflexivity].
  unfold rstrip. simpl. now destruct (is_space c).
Qed.

Lemma rstrip_idem (s : str) : rstrip (rstrip s) = rstrip s.
Proof.
  induction s as [|c s IH]; [reflexivity|].
  rewrite rstrip_cons. destruct (rstrip s) as [|y ys] eqn:E.
  - destruct (is_space c) eqn:Ec; [reflexivity|].
    rewrite rstrip_cons. change (rstrip []) with (@nil char). now rewrite Ec.
  - rewrite rstrip_cons, IH. reflexivity.
Qed.

Lemma lstrip_rstrip (s : str) : lstrip (rstrip s) = rstrip (lstrip s).
Proof.
  induction s as [|c s IH]; [reflexivity|].
  rewrite rstrip_cons. unfold lstrip at 2. cbn [drop_while].
  fold (lstrip s).
  destruct (rstrip s) as [|y ys] eqn:E; destruct (is_space c) eqn:Ec.
  - rewrite <- IH. reflexivity.
  - rewrite rstrip_cons, E, Ec. unfold lstrip. simpl. now rewrite Ec.
  - rewrite <- IH. unfold lstrip at 1. cbn [drop_while]. now rewrite Ec.
  - rewrite rstrip_cons, E. unfold lstrip. cbn [drop_while]. now rewrite Ec.
Qed.

Lemma lstrip_strip (s : str) : lstrip (strip s) = strip s.
Proof. unfold strip. now rewrite lstrip_rstrip, lstrip_idem. Qed.

Lemma rstrip_strip (s : str) : rstrip (strip s) = strip s.
Proof. unfold strip. apply rstrip_idem. Qed.

Lemma rstrip_stop (w : str) (c : char) (s : str) :
  is_space c = false -> rstrip (w ++ c :: s) = w ++ c :: rstrip s.
Proof.
  intros Hc. rewrite rstrip_app, rstrip_cons.
  destruct (rstrip s); [rewrite Hc|]; reflexivity.
Qed.

Lemma space_is_not_V (c : char) : is_space c = true -> N.eqb c ch_V = false.
Proof.
  intros H. destruct (N.eqb_spec c ch_V) as [->|]; [|reflexivity].
  now rewrite V_is_not_space in H.
Qed.

Lemma re_sub_V_from_skip (n : nat) :
  forall s, re_sub_V_from n s = re_sub_V (skipn n s).
Proof.
  induction n as [|n IH]; intros [|c s]; simpl; try reflexivity.
  apply IH.
Qed.

Lemma re_sub_V_matched (s : str) (n : nat) :
  match_V_len s = Some (S n) -> re_sub_V s = re_sub_V (skipn (S n) s).
Proof.
  destruct s as [|c s]; [discriminate|].
  intros H. unfold re_sub_V at 1. cbn [re_sub_V_from]. rewrite H.
  now rewrite re_sub_V_from_skip.
Qed.

Lemma re_sub_V_kept (c : char) (s : str) :
  match_V_len (c :: s) = None -> re_sub_V (c :: s) = c :: re_sub_V s.
Proof. intros H. unfold re_sub_V. cbn [re_sub_V_from]. now rewrite H. Qed.

(** The three ways the scan meets a run of whitespace [w]: a [V] follows,
    another character follows, the string ends. *)
Lemma re_sub_V_run_V (w r : str) :
  forallb is_space w = true ->
  re_sub_V (w ++ ch_V :: r) = re_sub_V (lstrip r).
Proof.
  intros Hw.
  assert (H : match_V_len (w ++ ch_V :: r)
              = Some (S (length w + length (take_while is_space r)))).
  { unfold match_V_len. rewrite (drop_while_all is_space w _ Hw).
    cbn [drop_while]. rewrite V_is_not_space, N.eqb_refl.
    rewrite (take_while_all_stop is_space w ch_V r Hw V_is_not_space).
    f_equal. lia. }
  rewrite (re_sub_V_matched _ _ H). f_equal.
  rewrite skipn_app, skipn_all2 by lia.
  replace (S (length w + length (take_while is_space r)) - length w)
    with (S (length (take_while is_space r))) by lia.
  cbn [skipn app]. apply skipn_take_while.
Qed.

Lemma re_sub_V_run_other (w : str) (c : char) (r : str) :
  forallb is_space w = true -> is_space c = false -> N.eqb c ch_V = false ->
  re_sub_V (w ++ c :: r) = w ++ c :: re_sub_V r.
Proof.
  intros Hw Hc HV.
  assert (Hr : forall u, forallb is_space u = true ->
                         match_V_len (u ++ c :: r) = None).
  { intros u Hu. unfold match_V_len. rewrite (drop_while_all is_space u _ Hu).
    cbn [drop_while]. now rewrite Hc, HV. }
  induction w as [|x w IH].
  - exact (re_sub_V_kept c r (Hr [] eq_refl)).
  - cbn [app]. rewrite (re_sub_V_kept x (w ++ c :: r) (Hr (x :: w) Hw)).
    simpl in Hw. apply andb_true_iff in Hw as [_ Hw]. now rewrite IH.
Qed.

Lemma re_sub_V_run_end (w : str) :
  forallb is_space w = true -> re_sub_V w = w.
Proof.
  induction w as [|x w IH]; intros Hw; [reflexivity|].
  rewrite re_sub_V_kept.
  - simpl in Hw. apply andb_true_iff in Hw as [_ Hw]. now rewrite IH.
  - unfold match_V_len.
    rewrite <- (app_nil_r (x :: w)), (drop_while_all is_space _ _ Hw).
    reflexivity.
Qed.

Lemma split_at_run_V (w r : str) :
  forallb is_space w = true ->
  split_at ch_V (w ++ ch_V :: r) = w :: split_at ch_V r.
Proof.
  induction w as [|x w IH]; intros Hw.
  - simpl. reflexivity.
  - simpl in Hw. apply andb_true_iff in Hw as [Hx Hw].
    cbn [app split_at]. rewrite (space_is_not_V x Hx), (IH Hw). reflexivity.
Qed.

Lemma split_at_run_other (w : str) (c : char) (r : str) :
  forallb is_space w = true -> N.eqb c ch_V = false ->
  split_at ch_V (w ++ c :: r)
  = match split_at ch_V r with
    | [] => [w ++ [c]]
    | r0 :: pieces => (w ++ c :: r0) :: pieces
    end.
Proof.
  intros Hw Hc. induction w as [|x w IH].
  - cbn [app split_at]. rewrite Hc. reflexivity.
  - simpl in Hw. apply andb_true_iff in Hw as [Hx Hw].
    cbn [app split_at]. rewrite (space_is_not_V x Hx), (IH Hw).
    now destruct (split_at ch_V r).
Qed.

Lemma split_at_run_end (w : str) :
  forallb is_space w = true -> split_at ch_V w = [w].
Proof.
  induction w as [|x w IH]; intros Hw; [reflexivity|].
  simpl in Hw. apply andb_true_iff in Hw as [Hx Hw].
  cbn [split_at]. now rewrite (space_is_not_V x Hx), (IH Hw).
Qed.

Lemma split_at_not_nil (sep : char) (s : str) : split_at sep s <> [].
Proof.
  destruct s as [|c s]; simpl; [discriminate|].
  destruct (N.eqb c sep); [discriminate|].
  destruct (split_at sep s); discriminate.
Qed.

(** A string cut at its first character that is not whitespace. *)
Lemma run_cases (s : str) :
  (forallb is_space s = true)
  \/ exists w c r, s = w ++ c :: r /\ forallb is_space w = true
                   /\ is_space c = false.
Proof.
  destruct (drop_while is_space s) as [|c r] eqn:E.
  - left. now apply drop_while_nil_all.
  - right. exists (take_while is_space s), c, r.
    split; [|split].
    + now rewrite <- E, take_drop_while.
    + apply take_while_all.
    + eapply drop_while_head, E.
Qed.

Lemma lstrip_pieces (r : str) :
  split_at ch_V (lstrip r)
  = match split_at ch_V r with
    | [] => []
    | r0 :: pieces => lstrip r0 :: pieces
    end.
Proof.
  destruct (run_cases r) as [Hr|(w & c & r' & -> & Hw & Hc)].
  - rewrite (split_at_run_end r Hr). unfold lstrip.
    rewrite <- (app_nil_r r) at 1 2.
    now rewrite (drop_while_all is_space r [] Hr).
  - unfold lstrip. rewrite (drop_while_all is_space w _ Hw).
    cbn [drop_while]. rewrite Hc.
    destruct (N.eqb_spec c ch_V) as [->|Hn].
    + rewrite (split_at_run_V w r' Hw). cbn [split_at].
      rewrite N.eqb_refl. f_equal.
      rewrite <- (app_nil_r w), (drop_while_all is_space w [] Hw). reflexivity.
    + apply N.eqb_neq in Hn. rewrite (split_at_run_other w c r' Hw Hn).
      pose proof (split_at_run_other [] c r' eq_refl Hn) as H0.
      cbn [app] in H0. rewrite H0.
      destruct (split_at ch_V r'); cbn [app].
      * f_equal. rewrite (drop_while_all is_space w _ Hw). simpl. now rewrite Hc.
      * f_equal. rewrite (drop_while_all is_space w _ Hw). simpl. now rewrite Hc.
Qed.

Lemma glue_first_lstrip (x : str) (pieces : list str) :
  glue_first (lstrip x :: pieces) = glue_after (x :: pieces).
Proof. destruct pieces; reflexivity. Qed.

(** What [re.sub] leaves, in terms of the pieces between the [V]s. *)
Lemma re_sub_V_pieces (n : nat) :
  forall s, length s <= n -> re_sub_V s = glue_first (split_at ch_V s).
Proof.
  induction n as [|n IH]; intros s Hn.
  - destruct s; [reflexivity|simpl in Hn; lia].
  - destruct (run_cases s) as [Hs|(w & c & r & -> & Hw & Hc)].
    + now rewrite (re_sub_V_run_end s Hs), (split_at_run_end s Hs).
    + rewrite length_app in Hn. cbn [length] in Hn.
      destruct (N.eqb_spec c ch_V) as [->|Hne].
      * rewrite (re_sub_V_run_V w r Hw), (split_at_run_V w r Hw).
        rewrite IH by (pose proof (length_drop_while is_space r);
                       unfold lstrip; lia).
        rewrite lstrip_pieces.
        destruct (split_at ch_V r) as [|r0 pieces] eqn:E;
          [now apply split_at_not_nil in E|].
        rewrite glue_first_lstrip. cbn [glue_first].
        assert (Hrw : rstrip w = []).
        { apply rstrip_nil_iff.
          rewrite <- (app_nil_r (rev w)).
          rewrite (drop_while_all is_space (rev w) []); [reflexivity|].
          rewrite forallb_forall in Hw |- *. intros x Hx. apply Hw.
          now apply in_rev. }
        now rewrite Hrw.
      * apply N.eqb_neq in Hne.
        rewrite (re_sub_V_run_other w c r Hw Hc Hne),
                (split_at_run_other w c r Hw Hne).
        rewrite IH by lia.
        destruct (split_at ch_V r) as [|r0 [|r1 pieces]] eqn:E;
          [now apply split_at_not_nil in E|reflexivity|].
        cbn [glue_first]. rewrite (rstrip_stop w c r0 Hc).
        now rewrite <- app_assoc.
Qed.

Lemma lstrip_glue_after (pieces : list str) :
  lstrip (glue_after pieces) = glue_after pieces.
Proof.
  induction pieces as [|x pieces IH]; [reflexivity|].
  destruct pieces as [|y pieces]; [apply lstrip_idem|].
  change (glue_after (x :: y :: pieces)) with (strip x ++ glue_after (y :: pieces)).
  rewrite lstrip_app, lstrip_strip, IH.
  now destruct (strip x).
Qed.

Lemma rstrip_glue_after (pieces : list str) :
  rstrip (glue_after pieces) = concat (map strip pieces).
Proof.
  induction pieces as [|x pieces IH]; [reflexivity|].
  destruct pieces as [|y pieces].
  - simpl. now rewrite app_nil_r.
  - change (glue_after (x :: y :: pieces))
      with (strip x ++ glue_after (y :: pieces)).
    rewrite rstrip_app, IH. cbn [map concat].
    destruct (strip y ++ concat (map strip pieces)) as [|z zs].
    + now rewrite rstrip_strip, app_nil_r.
    + reflexivity.
Qed.

(** [re.sub(..).strip()]: the pieces between the [V]s, trimmed and glued. *)
Lemma strip_re_sub_V (s : str) : strip (re_sub_V s) = trimmed_pieces s.
Proof.
  unfold trimmed_pieces. rewrite (re_sub_V_pieces (length s) s (le_n _)).
  destruct (split_at ch_V s) as [|x [|y pieces]].
  - reflexivity.
  - simpl. now rewrite app_nil_r.
  - change (glue_first (x :: y :: pieces))
      with (rstrip x ++ glue_after (y :: pieces)).
    unfold strip at 1.
    assert (H : lstrip (rstrip x ++ glue_after (y :: pieces))
                = strip x ++ glue_after (y :: pieces)).
    { rewrite lstrip_app, lstrip_rstrip, lstrip_glue_after.
      fold (strip x). now destruct (strip x). }
    rewrite H, rstrip_app, rstrip_glue_after. cbn [map concat].
    destruct (strip y ++ concat (map strip pieces)) as [|z zs].
    + now rewrite rstrip_strip, app_nil_r.
    + reflexivity.
Qed.

Lemma in_drop_while {A : Type} (p : A -> bool) (x : A) (l : list A) :
  In x (drop_while p l) -> In x l.
Proof.
  induction l as [|y l IH]; simpl; [auto|].
  destruct (p y); [auto|]. now intros H.
Qed.

Lemma in_strip (c : char) (s : str) : In c (strip s) -> In c s.
Proof.
  unfold strip, rstrip, lstrip. intros H.
  apply in_rev, in_drop_while, in_rev in H. eapply in_drop_while, H.
Qed.

Lemma split_at_pieces (sep : char) (s : str) :
  Forall (fun piece => ~ In sep piece) (split_at sep s).
Proof.
  induction s as [|c s IH]; simpl.
  - constructor; [intros []|constructor].
  - destruct (N.eqb_spec c sep) as [->|Hne].
    + constructor; [intros []|exact IH].
    + destruct (split_at sep s) as [|l ls].
      * constructor; [|constructor]. intros [H|[]]. congruence.
      * inversion IH as [|? ? Hl Hls]; subst. constructor; [|exact Hls].
        intros [H|H]; [congruence|auto].
Qed.

Lemma trimmed_pieces_no_V (s : str) : ~ In ch_V (trimmed_pieces s).
Proof.
  unfold trimmed_pieces. pose proof (split_at_pieces ch_V s) as H.
  induction H as [|x l Hx Hl IH]; simpl; [auto|].
  intros Hin. apply in_app_or in Hin as [Hin|Hin]; [|auto].
  apply Hx. eapply in_strip, Hin.
Qed.

(** A value without [V] is only trimmed. *)
Lemma trimmed_pieces_without_V (s : str) :
  ~ In ch_V s -> trimmed_pieces s = strip s.
Proof.
  intros H. unfold trimmed_pieces.
  assert (E : split_at ch_V s = [s]).
  { induction s as [|c s IH]; [reflexivity|].
    simpl. destruct (N.eqb_spec c ch_V) as [->|Hne].
    - exfalso. apply H. now left.
    - rewrite IH; [reflexivity|]. intros Hin. apply H. now right. }
  rewrite E. simpl. apply app_nil_r.
Qed.

(** ** The parser *)

Section ParserFacts.
Context {rt : Runtime}.

Lemma hanzi_loop_first_other (entries : list (str * json)) (h : str) :
  hanzi_loop entries = inr h ->
  match first_other_field entries with
  | None => h = []
  | Some (_, field_data) =>
      exists value,
        py_get field_data (lit "value") (JStr []) = inr (JStr value)
        /\ h = strip (re_sub_V value)
  end.
Proof.
  unfold first_other_field.
  induction entries as [|[field_id field_data] entries IH]; simpl.
  - now intros [= <-].
  - destruct (negb (str_eqb field_id (lit "name"))); [|exact IH].
    destruct (py_get field_data (lit "value") (JStr [])) as [e|v]; [discriminate|].
    destruct v; try discriminate. intros [= <-]. now exists s.
Qed.

Lemma report_no_record (m : message) (card : json) (r : ParsedRecord) :
  fst (report m card) <> inr (Some r).
Proof. unfold report. destruct (json_encodable card); discriminate. Qed.

Lemma parse_card_some (card : json) (r : ParsedRecord) :
  fst (parse_card card) = inr (Some r) ->
  extract card = inr r /\ all_missing r = false.
Proof.
  unfold parse_card. destruct (extract card) as [e|r'].
  - intros H. now apply report_no_record in H.
  - destruct (all_missing r') eqn:E.
    + intros H. now apply report_no_record in H.
    + simpl. intros [= ->]. now split.
Qed.

Lemma extract_hanzi (card : json) (r : ParsedRecord) :
  extract card = inr r ->
  exists entries,
    py_get card (lit "fields") (JObj []) = inr (JObj entries)
    /\ hanzi_loop entries = inr (hanzi r).
Proof.
  unfold extract. simpl.
  destruct (py_get card (lit "component-cache") (JObj [])) as [?|cc];
    [discriminate|].
  destruct (py_get cc (lit "pinyin") (JObj [])) as [?|pc]; [discriminate|].
  destruct (py_items pc) as [?|pe]; [discriminate|].
  destruct (pinyin_loop pe) as [?|py]; [discriminate|].
  destruct (py_get card (lit "fields") (JObj [])) as [?|fields_]; [discriminate|].
  destruct fields_ as [| | | | |entries]; try discriminate.
  cbn [py_items ret Monad_either].
  destruct (hanzi_loop entries) as [?|h] eqn:Eh; [discriminate|].
  destruct (extract_meaning card) as [?|m]; [discriminate|].
  destruct (extract_added card) as [?|a]; [discriminate|].
  intros [= <-]. exists entries. now split.
Qed.

(** C5, amended.  For a card that parses to a record, [hanzi] comes from
    the first entry of [card.fields] whose key is not ["name"]: its value
    (the empty string without a ["value"]) is cut at every uppercase [V],
    whether the [V] stands alone or inside a longer word, each piece is
    trimmed of the whitespace around it, and the pieces are joined.  So
    no [V] remains, a value without [V] is only trimmed, and with no such
    field [hanzi] is empty. *)
Theorem hanzi_is_the_first_other_field_without_V
    (card : json) (r : ParsedRecord) :
  fst (parse_card card) = inr (Some r) ->
  exists entries,
    py_get card (lit "fields") (JObj []) = inr (JObj entries)
    /\ match first_other_field entries with
       | None => hanzi r = []
       | Some (_, field_data) =>
           exists value,
             py_get field_data (lit "value") (JStr []) = inr (JStr value)
             /\ hanzi r = trimmed_pieces value
             /\ (~ In ch_V value -> hanzi r = strip value)
       end
    /\ ~ In ch_V (hanzi r).
Proof.
  intros H. apply parse_card_some in H as [H _].
  destruct (extract_hanzi card r H) as (entries & Hf & Hh).
  exists entries. split; [exact Hf|].
  apply hanzi_loop_first_other in Hh.
  destruct (first_other_field entries) as [[field_id field_data]|].
  - destruct Hh as (value & Hv & Hh). rewrite strip_re_sub_V in Hh. split.
    + exists value. split; [exact Hv|]. split; [exact Hh|].
      intros HV. rewrite Hh. now apply trimmed_pieces_without_V.
    + rewrite Hh. apply trimmed_pieces_no_V.
  - split; [exact Hh|]. rewrite Hh. intros [].
Qed.








End ParserFacts.

(** ** The writer and the reader *)

Lemma strip_prefix_app (p s : str) : strip_prefix p (p ++ s) = Some s.
Proof.
  induction p as [|x p IH]; simpl; [now destruct s|].
  now rewrite N.eqb_refl.
Qed.

Lemma split_lines_line (l s : str) :
  no_newline l -> split_lines (l ++ ch_newline :: s) = l :: split_lines s.
Proof.
  unfold no_newline. induction l as [|c l IH]; intros H.
  - reflexivity.
  - cbn [app split_lines].
    destruct (N.eqb_spec c ch_newline) as [->|_];
      [exfalso; apply H; now left|].
    rewrite IH; [reflexivity|]. intros Hin. apply H. now right.
Qed.

Lemma split_lines_unlines (ls : list str) :
  Forall no_newline ls -> split_lines (unlines ls) = ls.
Proof.
  unfold unlines. induction 1 as [|l ls Hl Hls IH]; [reflexivity|].
  cbn [map concat]. rewrite <- app_assoc. cbn [app].
  now rewrite (split_lines_line l _ Hl), IH.
Qed.

Lemma unlines_app (a b : list str) : unlines (a ++ b) = unlines a ++ unlines b.
Proof. unfold unlines. now rewrite map_app, concat_app. Qed.

Section WriterFacts.
Context {rt : Runtime}.

Lemma record_text_lines (r : ParsedRecord) :
  record_text r = unlines (record_lines r).
Proof.
  unfold record_text, unlines, record_lines. cbn [map concat].
  now rewrite !app_nil_r, <- !app_assoc.
Qed.

(** The loop over [enumerate(valid_cards, 1)] writes the records with a
    separator between two of them. *)
Lemma write_records_join (records : list ParsedRecord) :
  forall i total,
    total + 1 = i + length records ->
    write_records i total records = join_blocks (map record_text records).
Proof.
  induction records as [|r records IH]; intros i total H; [reflexivity|].
  cbn [write_records map length] in *.
  destruct records as [|r2 records].
  - cbn [length] in H. replace (i <? total) with false
      by (symmetry; apply Nat.ltb_ge; lia).
    simpl. now rewrite app_nil_r.
  - replace (i <? total) with true
      by (symmetry; apply Nat.ltb_lt; cbn [length] in H; lia).
    rewrite (IH (S i) total) by (cbn [length] in *; lia).
    reflexivity.
Qed.

Lemma file_text_join (records : list ParsedRecord) :
  file_text records = join_blocks (map record_text records).
Proof. apply write_records_join. lia. Qed.

Lemma join_blocks_lines (records : list ParsedRecord) :
  join_blocks (map record_text records) = unlines (all_lines records).
Proof.
  induction records as [|r records IH]; [reflexivity|].
  destruct records as [|r2 records].
  - apply record_text_lines.
  - change (all_lines (r :: r2 :: records))
      with (record_lines r ++ separator :: all_lines (r2 :: records)).
    change (join_blocks (map record_text (r :: r2 :: records)))
      with (record_text r ++ (separator ++ [ch_newline])
              ++ join_blocks (map record_text (r2 :: records))).
    rewrite IH, unlines_app, record_text_lines. reflexivity.
Qed.

Lemma split_blocks_record (r : ParsedRecord) (ls : list str) :
  split_blocks (record_lines r ++ ls)
  = match split_blocks ls with
    | [] => [record_lines r]
    | b :: bs => (record_lines r ++ b) :: bs
    end.
Proof.
  unfold record_lines. cbn [app split_blocks].
  change (str_eqb (lit "Pinyin: " ++ pinyin r) separator) with false.
  change (str_eqb (lit "Hanzi: " ++ hanzi r) separator) with false.
  change (str_eqb (lit "Meaning: " ++ py_format (meaning r)) separator) with false.
  change (str_eqb (lit "Added: " ++ py_format (added r)) separator) with false.
  cbv iota. now destruct (split_blocks ls).
Qed.

Lemma split_blocks_all_lines (r : ParsedRecord) (records : list ParsedRecord) :
  split_blocks (all_lines (r :: records)) = map record_lines (r :: records).
Proof.
  revert r. induction records as [|r2 records IH]; intros r.
  - cbn [all_lines map]. rewrite <- (app_nil_r (record_lines r)) at 1.
    rewrite split_blocks_record. cbn [split_blocks]. now rewrite app_nil_r.
  - change (all_lines (r :: r2 :: records))
      with (record_lines r ++ separator :: all_lines (r2 :: records)).
    rewrite split_blocks_record.
    change (split_blocks (separator :: all_lines (r2 :: records)))
      with ([] :: split_blocks (all_lines (r2 :: records))).
    now rewrite IH, app_nil_r.
Qed.

Lemma read_block_record (r : ParsedRecord) :
  read_block (record_lines r) = Some (fields_of r).
Proof.
  unfold read_block, record_lines, fields_of. now rewrite !strip_prefix_app.
Qed.

Lemma read_blocks_records (records : list ParsedRecord) :
  read_blocks (map record_lines records) = Some (map fields_of records).
Proof.
  induction records as [|r records IH]; [reflexivity|].
  cbn [map read_blocks]. now rewrite read_block_record, IH.
Qed.

Lemma no_newline_app (a b : str) : no_newline a -> no_newline b -> no_newline (a ++ b).
Proof.
  unfold no_newline. intros Ha Hb H. apply in_app_or in H as [H|H]; auto.
Qed.

Lemma record_lines_single (r : ParsedRecord) :
  single_line_fields (fields_of r) -> Forall no_newline (record_lines r).
Proof.
  unfold single_line_fields, fields_of, record_lines.
  intros (Hp & Hh & Hm & Ha).
  assert (L : forall label : str,
             existsb (N.eqb ch_newline) label = false -> no_newline label).
  { intros label E Hin. apply Bool.not_true_iff_false in E. apply E.
    apply existsb_exists. exists ch_newline. split; [exact Hin|apply N.eqb_refl]. }
  repeat constructor; apply no_newline_app; try assumption; now apply L.
Qed.

Lemma all_lines_single (records : list ParsedRecord) :
  Forall (fun r => single_line_fields (fields_of r)) records ->
  Forall no_newline (all_lines records).
Proof.
  induction 1 as [|r records Hr Hrs IH]; [constructor|].
  destruct records as [|r2 records]; [now apply record_lines_single|].
  change (all_lines (r :: r2 :: records))
    with (record_lines r ++ separator :: all_lines (r2 :: records)).
  apply Forall_app. split; [now apply record_lines_single|].
  constructor; [|exact IH].
  unfold no_newline, separator. simpl. intuition discriminate.
Qed.

Lemma record_writes_text (r : ParsedRecord) :
  concat (record_writes r) = record_text r.
Proof.
  unfold record_writes, record_text. cbn [concat].
  now rewrite app_nil_r, <- !app_assoc.
Qed.

Lemma writes_from_text (records : list ParsedRecord) :
  forall i total,
    concat (writes_from i total records) = write_records i total records.
Proof.
  induction records as [|r records IH]; intros i total; [reflexivity|].
  cbn [writes_from write_records].
  rewrite !concat_app, record_writes_text, IH.
  destruct (i <? total); cbn [concat]; now rewrite ?app_nil_r.
Qed.

Lemma file_writes_text (records : list ParsedRecord) :
  concat (file_writes records) = file_text records.
Proof. apply writes_from_text. Qed.

Lemma encodable_app (a b : str) :
  encodable (a ++ b) = encodable a && encodable b.
Proof. apply forallb_app. Qed.

Lemma record_writes_encodable (r : ParsedRecord) :
  encodable_fields (fields_of r) ->
  Forall (fun t => encodable t = true) (record_writes r).
Proof.
  unfold encodable_fields, fields_of, record_writes.
  intros (Hp & Hh & Hm & Ha).
  repeat constructor; rewrite !encodable_app;
    first [rewrite Hp|rewrite Hh|rewrite Hm|rewrite Ha]; reflexivity.
Qed.

Lemma writes_from_encodable (records : list ParsedRecord) :
  Forall (fun r => encodable_fields (fields_of r)) records ->
  forall i total,
    Forall (fun t => encodable t = true) (writes_from i total records).
Proof.
  induction 1 as [|r records Hr _ IH]; intros i total; [constructor|].
  cbn [writes_from]. apply Forall_app. split; [now apply record_writes_encodable|].
  apply Forall_app. split; [|apply IH].
  destruct (i <? total); [|constructor].
  constructor; [reflexivity|constructor].
Qed.

(** Writes of texts that can all be encoded put them all in the file. *)
Lemma write_all_encodable (texts : list str) :
  Forall (fun t => encodable t = true) texts ->
  write_all texts = (concat texts, inr tt).
Proof.
  induction 1 as [|t texts Ht _ IH]; [reflexivity|].
  cbn [write_all concat]. now rewrite Ht, IH.
Qed.

(** What is in the file when the block is left begins the text that was to
    be written. *)
Lemma write_all_prefix (texts : list str) :
  exists remaining, concat texts = fst (write_all texts) ++ remaining.
Proof.
  induction texts as [|t texts [remaining IH]]; [now exists []|].
  cbn [write_all concat]. destruct (encodable t).
  - destruct (write_all texts) as [written res]. cbn [fst] in *.
    exists remaining. now rewrite IH, app_assoc.
  - now exists (t ++ concat texts).
Qed.

(** C8, amended.  For every list of records, the text the loop sends to
    the file holds, for each record in the order given, the four lines
    [Pinyin: ], [Hanzi: ], [Meaning: ], [Added: ] with the value after the
    colon and the space (nothing for an empty value), and a line [---]
    between two records, none after the last.  When every value can be
    encoded (it holds no lone surrogate) every write succeeds and the file
    holds this text.  When, besides, no value has a line break in it,
    reading the file back and cutting it at the lines [---] gives as many
    blocks as records, and the blocks give the records' four values back
    in order. *)
Theorem file_of_single_line_records_reads_back (records : list ParsedRecord) :
  file_text records = join_blocks (map record_text records)
  /\ concat (file_writes records) = file_text records
  /\ (Forall (fun r => encodable_fields (fields_of r)) records ->
      write_all (file_writes records) = (file_text records, inr tt))
  /\ (Forall (fun r => encodable_fields (fields_of r)) records ->
      Forall (fun r => single_line_fields (fields_of r)) records ->
      length (blocks_of (fst (write_all (file_writes records)))) = length records
      /\ read_file (fst (write_all (file_writes records)))
         = Some (map fields_of records)).
Proof.
  split; [apply file_text_join|]. split; [apply file_writes_text|].
  assert (Hw : Forall (fun r => encodable_fields (fields_of r)) records ->
               write_all (file_writes records) = (file_text records, inr tt)).
  { intros He. rewrite write_all_encodable by now apply writes_from_encodable.
    now rewrite file_writes_text. }
  split; [exact Hw|]. intros He H. rewrite (Hw He). cbn [fst].
  unfold read_file, blocks_of.
  rewrite file_text_join, join_blocks_lines.
  rewrite (split_lines_unlines _ (all_lines_single records H)).
  destruct records as [|r records]; [now split|].
  assert (E : all_lines (r :: records) <> []).
  { destruct records; discriminate. }
  destruct (all_lines (r :: records)) as [|l ls] eqn:El; [now elim E|].
  rewrite <- El, split_blocks_all_lines, read_blocks_records.
  now rewrite length_map.
Qed.

End WriterFacts.

(** ** The properties at concrete inputs *)

(** The card of the design document parses to the record given there, and
    a card with nothing to extract to [None]. *)
Example example_card_parses :
  @parse_card example_runtime example_card = (inr (Some example_record), []).
Proof. reflexivity. Qed.

Example blank_card_is_skipped :
  @parse_card example_runtime blank_card
  = (inr None, [EvPrint (MsgSkipping blank_card)]).
Proof. reflexivity. Qed.

(** Two records in a file: one separator, between them. *)
Example two_records_text :
  @file_text example_runtime [one_line_record; one_line_record]
  = unlines [lit "Pinyin: "; lit "Hanzi: "; lit "Meaning: c --- d"; lit "Added: ";
             lit "---";
             lit "Pinyin: "; lit "Hanzi: "; lit "Meaning: c --- d"; lit "Added: "].
Proof. reflexivity. Qed.

(** A deck found on the second page, whatever the case of its name. *)
Example deck_on_the_second_page :
  result (@get_deck_id example_runtime example_config (lit "chinese")
            [ok ([], {| docs := [deck "Other" "d1"]; bookmark := Some (lit "b2") |});
             ok ([], {| docs := [deck "CHINESE" "d2"]; bookmark := None |})])
  = Returned (JStr (lit "d2")).
Proof. reflexivity. Qed.

(** A 204 for the decks and a 201 for the cards. *)
Lemma status_other_than_200_witness :
  204%Z <> 200%Z /\ 201%Z <> 200%Z
  /\ @get_deck_id example_runtime example_config (lit "Chinese")
       [Response 204 [] None; ok ([], other_deck_page)]
     = {| trace := [EvGet decks_url];
          result := Raised (FailedToFetch Decks 204 []);
          rest := [ok ([], other_deck_page)] |}
  /\ @get_cards example_runtime example_config (JStr (lit "D1"))
       [Response 201 (lit "created") None]
     = {| trace := [EvGet cards_url];
          result := Raised (FailedToFetch Cards 201 (lit "created"));
          rest := [] |}.
Proof.
  assert (H204 : 204%Z <> 200%Z) by discriminate.
  assert (H201 : 201%Z <> 200%Z) by discriminate.
  split; [exact H204|]. split; [exact H201|]. split.
  - exact (proj1 (@status_other_than_200_fails_at_once example_runtime
                    example_config (lit "Chinese") (JStr (lit "D1")) []
                    [ok ([], other_deck_page)] decks_url 0 204 [] None H204)
             eq_refl).
  - exact (proj2 (@status_other_than_200_fails_at_once example_runtime
                    example_config (lit "Chinese") (JStr (lit "D1")) []
                    [] cards_url 0 201 (lit "created") None H201)
             eq_refl).
Defined.

(** Three read timeouts on the first request of each function. *)
Lemma read_timeouts_witness :
  sleeps (trace (@get_deck_id example_runtime example_config (lit "Chinese")
                   [ReadTimeout; ReadTimeout; ReadTimeout]))
  = [1; 2]
  /\ result (@get_cards example_runtime example_config (JStr (lit "D1"))
               [ReadTimeout; ReadTimeout; ReadTimeout])
     = Raised (TimedOutAfterRetries Cards).
Proof.
  pose proof (@read_timeouts_are_retried_twice example_runtime example_config
                (lit "Chinese") (JStr (lit "D1")) [] [] decks_url) as Hd.
  pose proof (@read_timeouts_are_retried_twice example_runtime example_config
                (lit "Chinese") (JStr (lit "D1")) [] [] cards_url) as Hc.
  destruct Hd as [Hd _]. destruct Hc as [_ Hc].
  destruct (Hd eq_refl) as (_ & _ & Hd3).
  destruct (Hc eq_refl) as (_ & _ & Hc3).
  split.
  - cbn [app] in Hd3. rewrite Hd3. reflexivity.
  - cbn [app] in Hc3. rewrite Hc3. reflexivity.
Defined.

(** C3 as stated fails: after the third timeout nothing is slept, so the
    sleeps of three timeouts in a row are 1 and 2 seconds, and no 4. *)
Lemma no_sleep_after_the_third_timeout :
  let r := @get_cards example_runtime example_config (JStr (lit "D1"))
             [ReadTimeout; ReadTimeout; ReadTimeout] in
  sleeps (trace r) = [1; 2]
  /\ ~ In 4 (sleeps (trace r))
  /\ requests (trace r) = [cards_url; cards_url; cards_url]
  /\ result r = Raised (TimedOutAfterRetries Cards).
Proof.
  vm_compute. split; [reflexivity|]. split; [|split; reflexivity].
  intros [H|[H|[]]]; discriminate.
Qed.

(** Two pages of cards. *)
Lemma get_cards_two_pages_witness :
  Forall (fun reply => last_page (snd reply) = false) [first_cards_page]
  /\ last_page (snd last_cards_page) = true
  /\ result (@get_cards example_runtime example_config (JStr (lit "D1"))
               [ok first_cards_page; ok last_cards_page])
     = Returned [example_card; card_with "TV" "television"].
Proof.
  assert (H1 : Forall (fun reply => last_page (snd reply) = false)
                 [first_cards_page]) by (constructor; [reflexivity|constructor]).
  assert (H2 : last_page (snd last_cards_page) = true) by reflexivity.
  split; [exact H1|]. split; [exact H2|].
  exact (proj1 (@get_cards_returns_pages_in_order example_runtime example_config
                  (JStr (lit "D1")) [first_cards_page] last_cards_page [] H1 H2)).
Defined.



(** The same run leaves the files alone. *)
Lemma http_error_leaves_the_files_witness :
  files (@script_run example_runtime example_env
           [Response 500 (lit "oops") None] no_files)
  = no_files.
Proof.
  exact (proj1 (proj2 (@failure_before_the_write_leaves_the_files
                         example_runtime example_env
                         [Response 500 (lit "oops") None] no_files))
           example_config (FailedToFetch Decks 500 (lit "oops")) eq_refl eq_refl).
Defined.

(** C5 as stated fails: the [V] of the word [TV] is inside a longer word,
    and it is removed. *)
Lemma V_inside_a_word_is_removed :
  fst (@parse_card example_runtime (card_with "TV" "television"))
  = inr (Some {| pinyin := []; hanzi := lit "T";
                 meaning := JStr (lit "television"); added := JStr [] |})
  /\ lit "T" <> lit "TV".
Proof. split; [reflexivity|discriminate]. Qed.

(** The hanzi of the design document's card. *)
Lemma hanzi_of_the_example_card_witness :
  fst (@parse_card example_runtime example_card) = inr (Some example_record)
  /\ ~ In ch_V (hanzi example_record).
Proof.
  split; [reflexivity|].
  destruct (@hanzi_is_the_first_other_field_without_V example_runtime
              example_card example_record eq_refl) as (entries & _ & _ & H).
  exact H.
Defined.



(** C8 as stated fails: a name with a line [---] in it gives two blocks
    for one record, and the record cannot be read back. *)
Lemma line_break_in_a_value_breaks_the_blocks :
  fst (@parse_card example_runtime multiline_card) = inr (Some multiline_record)
  /\ write_all (@file_writes example_runtime [multiline_record])
     = (@file_text example_runtime [multiline_record], inr tt)
  /\ length (blocks_of (@file_text example_runtime [multiline_record])) = 2
  /\ read_file (@file_text example_runtime [multiline_record]) = None.
Proof. vm_compute. repeat split. Qed.

(** Two records written and read back. *)
Lemma two_records_read_back_witness :
  Forall (fun r => encodable_fields (@fields_of example_runtime r))
    [example_record; one_line_record]
  /\ Forall (fun r => single_line_fields (@fields_of example_runtime r))
       [example_record; one_line_record]
  /\ read_file (fst (write_all (@file_writes example_runtime
                                  [example_record; one_line_record])))
     = Some (map (@fields_of example_runtime)
               [example_record; one_line_record]).
Proof.
  assert (He : Forall (fun r => encodable_fields (@fields_of example_runtime r))
                 [example_record; one_line_record]).
  { repeat constructor. }
  assert (H : Forall (fun r => single_line_fields (@fields_of example_runtime r))
                [example_record; one_line_record]).
  { repeat constructor; unfold no_newline; simpl; intuition discriminate. }
  split; [exact He|]. split; [exact H|].
  exact (proj2 (proj2 (proj2 (proj2
           (@file_of_single_line_records_reads_back example_runtime
              [example_record; one_line_record]))) He H)).
Defined.

(** * Further properties of the code *)

(** ** Deck resolution *)

Section Resolver.
Context {rt : Runtime}.
Variable config : MochiConfig.

Lemma find_deck_others (name : str) (decks : list json) :
  Forall (other_deck name) decks -> find_deck name decks = inr None.
Proof.
  induction 1 as [|d decks (n & Hn & Hne) _ IH]; [reflexivity|].
  cbn [find_deck]. rewrite Hn. simpl.
  destruct (str_eqb (str_lower n) (str_lower name)) eqn:E; [|exact IH].
  apply str_eqb_eq in E. now elim Hne.
Qed.

(** The scan of a page stops at the first entry it cannot pass. *)
Lemma find_deck_app (name : str) (before decks : list json) :
  Forall (other_deck name) before ->
  find_deck name (before ++ decks) = find_deck name decks.
Proof.
  induction 1 as [|d before (n & Hn & Hne) _ IH]; [reflexivity|].
  cbn [app find_deck]. rewrite Hn. simpl.
  destruct (str_eqb (str_lower n) (str_lower name)) eqn:E; [|exact IH].
  apply str_eqb_eq in E. now elim Hne.
Qed.

Lemma find_deck_named (name : str) (id d : json) (others : list json) :
  named_deck name id d -> find_deck name (d :: others) = inr (Some id).
Proof.
  intros (n & Hn & He & Hid). cbn [find_deck]. rewrite Hn. simpl.
  now rewrite He, str_eqb_refl, Hid.
Qed.

Lemma find_deck_nameless (name : str) (d : json) (others : list json) (e : exn) :
  py_index d (lit "name") = inl e -> find_deck name (d :: others) = inl e.
Proof. intros H. cbn [find_deck]. now rewrite H. Qed.

Lemma decks_try_passes (name : str) (url : str) (attempt : nat)
    (reply : str * page) :
  passed_page name reply ->
  decks_try config name tt url attempt (ok reply)
  = ([], CBreak tt (api_base_url config ++ lit "/decks?bookmark="
                      ++ bookmark_text (bookmark (snd reply)))).
Proof.
  intros [Hd Hl]. unfold last_page in Hl.
  apply orb_false_iff in Hl as [He Hb].
  unfold decks_try, ok. change (negb (200 =? 200)%Z) with false. cbv iota.
  now rewrite (find_deck_others name _ Hd), Hb, He.
Qed.

(** The pages before the one that decides are passed one request each. *)
Lemma decks_loop_passes (name : str) (pages : list (str * page)) :
  forall (url : str) (hit : str * page) (more : list http_result),
    Forall (passed_page name) pages ->
    exists url' evs,
      length (requests evs) = length pages
      /\ fetch_loop (decks_try config name)
           (fun _ => Raised (DeckNotFound name)) tt url 0
           (map ok pages ++ ok hit :: more)
         = after evs
             (fetch_loop (decks_try config name)
                (fun _ => Raised (DeckNotFound name)) tt url' 0
                (ok hit :: more)).
Proof.
  induction pages as [|p pages IH]; intros url hit more Hp.
  - exists url, []. split; [reflexivity|]. cbn [map app]. now rewrite after_nil.
  - inversion Hp as [|? ? Hp1 Hp2]; subst.
    cbn [map app fetch_loop]. rewrite (decks_try_passes name url 0 p Hp1).
    rewrite is_empty_app_r by reflexivity.
    destruct (IH (api_base_url config ++ lit "/decks?bookmark="
                    ++ bookmark_text (bookmark (snd p))) hit more Hp2)
      as (url' & evs & Hn & E).
    exists url', (EvGet url :: evs). split; [simpl; now rewrite Hn|].
    rewrite E, after_after. reflexivity.
Qed.

(** X1.  When the pages of the listing before some page hold only decks of
    other names and each has a bookmark, and on that page the first entry
    whose lower-cased name is the lower-cased name asked for has the id
    [id], [get_deck_id] returns [id]: whatever the case of the names, on
    whichever page, after one request per page and without reading
    anything after that page, entries after the match included. *)
Theorem get_deck_id_returns_first_match
    (name : str) (pages : list (str * page)) (hit : str * page)
    (before others : list json) (d id : json) (more : list http_result) :
  Forall (passed_page name) pages ->
  docs (snd hit) = before ++ d :: others ->
  Forall (other_deck name) before ->
  named_deck name id d ->
  let r := get_deck_id config name (map ok pages ++ ok hit :: more) in
  result r = Returned id
  /\ rest r = more
  /\ length (requests (trace r)) = S (length pages).
Proof.
  intros Hp Hd Hb Hn r. subst r. unfold get_deck_id, fetch.
  rewrite decks_url_not_empty.
  destruct (decks_loop_passes name pages (api_base_url config ++ lit "/decks")
              hit more Hp) as (url' & evs & Hlen & ->).
  assert (E : decks_try config name tt url' 0 (ok hit) = ([], CReturn id)).
  { unfold decks_try, ok. change (negb (200 =? 200)%Z) with false. cbv iota.
    now rewrite Hd, (find_deck_app name before _ Hb),
      (find_deck_named name id d others Hn). }
  cbn [fetch_loop]. rewrite E.
  cbn [after trace result rest]. rewrite requests_app. cbn [requests app].
  rewrite length_app, Hlen. cbn [length].
  split; [reflexivity|]. split; [reflexivity|lia].
Qed.

(** X2.  An entry without a ["name"] stops the resolution with the
    [KeyError] of that key as soon as the scan reaches it, even when the
    deck asked for comes later on the same page. *)
Theorem get_deck_id_raises_on_nameless_entry
    (name : str) (pages : list (str * page)) (hit : str * page)
    (before others : list json) (members : list (str * json))
    (more : list http_result) :
  Forall (passed_page name) pages ->
  docs (snd hit) = before ++ JObj members :: others ->
  Forall (other_deck name) before ->
  assoc (lit "name") members = None ->
  let r := get_deck_id config name (map ok pages ++ ok hit :: more) in
  result r = Raised (KeyError (lit "name")) /\ rest r = more.
Proof.
  intros Hp Hd Hb Hn r. subst r. unfold get_deck_id, fetch.
  rewrite decks_url_not_empty.
  destruct (decks_loop_passes name pages (api_base_url config ++ lit "/decks")
              hit more Hp) as (url' & evs & Hlen & ->).
  assert (E : decks_try config name tt url' 0 (ok hit)
              = ([], CRaise (KeyError (lit "name")))).
  { unfold decks_try, ok. change (negb (200 =? 200)%Z) with false. cbv iota.
    rewrite Hd, (find_deck_app name before _ Hb).
    rewrite (find_deck_nameless name (JObj members) others (KeyError (lit "name")))
      by (unfold py_index; now rewrite Hn).
    reflexivity. }
  cbn [fetch_loop]. rewrite E. now split.
Qed.

End Resolver.

(** ** Retries and failures *)

Section Retrying.
Variables St R : Type.
Variable body : St -> str -> nat -> http_result -> list event * ctl St R.
Variable otherwise : St -> outcome R.
Variable op : endpoint.
Hypothesis body_timeout :
  forall st url attempt, body st url attempt ReadTimeout = on_read_timeout op attempt.
Hypothesis body_answer :
  forall st url attempt r,
    r <> ReadTimeout ->
    body st url attempt r = body st url 0 r
    /\ snd (body st url 0 r) <> CNextAttempt.

(** Up to two timeouts, then an answer: the answer is handled as it
    would be at once. *)
Lemma fetch_loop_after_timeouts (k : nat) (st : St) (url : str)
    (r : http_result) (script : list http_result) :
  k <= 2 -> r <> ReadTimeout ->
  result (fetch_loop body otherwise st url 0 (repeat ReadTimeout k ++ r :: script))
  = result (fetch_loop body otherwise st url k (r :: script)).
Proof.
  intros Hk Hr.
  destruct k as [|[|[|k]]]; [reflexivity| | |lia];
    cbn [repeat app fetch_loop]; rewrite !body_timeout; reflexivity.
Qed.

Lemma fetch_loop_with_timeouts (answers : list (nat * http_result)) :
  forall st url,
    Forall (fun kr => fst kr <= 2 /\ snd kr <> ReadTimeout) answers ->
    result (fetch_loop body otherwise st url 0 (with_timeouts answers))
    = result (fetch_loop body otherwise st url 0 (map snd answers)).
Proof.
  induction answers as [|[k r] answers IH]; intros st url H; [reflexivity|].
  inversion H as [|? ? [Hk Hr] H']; subst. simpl in Hk, Hr.
  unfold with_timeouts. cbn [flat_map fst snd map]. rewrite <- app_assoc.
  cbn [app]. fold (with_timeouts answers).
  rewrite (fetch_loop_after_timeouts k st url r _ Hk Hr).
  cbn [fetch_loop].
  destruct (body_answer st url k r Hr) as [-> Hn].
  destruct (body st url 0 r) as [evs c]. simpl in Hn.
  destruct c as [v|e|st' url'|]; cbn [after result]; try reflexivity.
  - destruct (is_empty url'); [reflexivity|]. now apply IH.
  - now elim Hn.
Qed.

End Retrying.

Section Failures.
Context {rt : Runtime}.
Variable config : MochiConfig.

Lemma decks_try_answer (name : str) (url : str) (attempt : nat) (r : http_result) :
  r <> ReadTimeout ->
  decks_try config name tt url attempt r = decks_try config name tt url 0 r
  /\ snd (decks_try config name tt url 0 r) <> CNextAttempt.
Proof.
  intros Hr. destruct r as [|info|status_code text body]; [now elim Hr| |];
    (split; [reflexivity|]); simpl; [discriminate|].
  destruct (negb (status_code =? 200)%Z); [discriminate|].
  destruct body as [data|]; [|discriminate].
  destruct (find_deck name (docs data)) as [e|[id|]]; try discriminate.
  destruct (negb (bookmark_truthy (bookmark data)) || is_empty (docs data));
    discriminate.
Qed.

Lemma cards_try_answer (cards : list json) (url : str) (attempt : nat)
    (r : http_result) :
  r <> ReadTimeout ->
  cards_try config cards url attempt r = cards_try config cards url 0 r
  /\ snd (cards_try config cards url 0 r) <> CNextAttempt.
Proof.
  intros Hr. destruct r as [|info|status_code text body]; [now elim Hr| |];
    (split; [reflexivity|]); simpl; [discriminate|].
  destruct (negb (status_code =? 200)%Z); [discriminate|].
  destruct body as [data|]; [|discriminate]. simpl.
  destruct (is_empty (docs data)); [discriminate|].
  destruct (negb (bookmark_truthy (bookmark data))); discriminate.
Qed.

(** X3.  Read timeouts that stay under three in a row change nothing in
    what the two functions return or raise: with up to two timeouts
    before each answer, the outcome is that of the answers alone.  The
    count of attempts starts again with every request. *)
Theorem timeouts_under_three_are_transparent
    (name : str) (deck_id : json) (answers : list (nat * http_result)) :
  Forall (fun kr => fst kr <= 2 /\ snd kr <> ReadTimeout) answers ->
  result (get_deck_id config name (with_timeouts answers))
  = result (get_deck_id config name (map snd answers))
  /\ result (get_cards config deck_id (with_timeouts answers))
     = result (get_cards config deck_id (map snd answers)).
Proof.
  intros H. unfold get_deck_id, get_cards, fetch.
  rewrite decks_url_not_empty, cards_url_not_empty. split.
  - apply (fetch_loop_with_timeouts _ _ _ _ Decks); [reflexivity| |exact H].
    intros [] url attempt r. apply decks_try_answer.
  - apply (fetch_loop_with_timeouts _ _ _ _ Cards); [reflexivity| |exact H].
    intros cards url attempt r. apply cards_try_answer.
Qed.

(** X4.  Only a read timeout is retried.  An exception of [client.get] of
    any other kind, and a body with status 200 that is no JSON, leave the
    function at once with that exception, in whichever attempt: one
    request, no sleep, nothing more read. *)
Theorem other_failures_are_not_retried
    (name : str) (deck_id : json) (pre post : list http_result)
    (url : str) (attempt : nat) (info text : str) :
  (result (get_deck_id config name pre) = Awaiting url attempt ->
   get_deck_id config name (pre ++ OtherFailure info :: post)
   = {| trace := trace (get_deck_id config name pre) ++ [EvGet url];
        result := Raised (TransportError info); rest := post |}
   /\ get_deck_id config name (pre ++ Response 200 text None :: post)
      = {| trace := trace (get_deck_id config name pre) ++ [EvGet url];
           result := Raised JSONDecodeError; rest := post |})
  /\ (result (get_cards config deck_id pre) = Awaiting url attempt ->
      get_cards config deck_id (pre ++ OtherFailure info :: post)
      = {| trace := trace (get_cards config deck_id pre) ++ [EvGet url];
           result := Raised (TransportError info); rest := post |}
      /\ get_cards config deck_id (pre ++ Response 200 text None :: post)
         = {| trace := trace (get_cards config deck_id pre) ++ [EvGet url];
              result := Raised JSONDecodeError; rest := post |}).
Proof.
  split; intros H.
  - rewrite !(get_deck_id_app _ _ _ _ _ H). now split.
  - destruct (get_cards_app _ _ _ _ _ H) as [cards E]. rewrite !E. now split.
Qed.

End Failures.

(** ** What a fetch function requests and how long it sleeps *)

Lemma starts_with_app (p s : str) : starts_with p (p ++ s) = true.
Proof.
  induction p as [|x p IH]; simpl; [reflexivity|].
  now rewrite N.eqb_refl.
Qed.

Lemma ends_with_app (s suffix : str) : ends_with suffix (s ++ suffix) = true.
Proof. unfold ends_with. rewrite rev_app_distr. apply starts_with_app. Qed.

Lemma on_read_timeout_events {St R : Type} (allowed : str -> Prop)
    (op : endpoint) (attempt : nat) :
  Forall (allowed_event allowed) (fst (@on_read_timeout St R op attempt))
  /\ match snd (@on_read_timeout St R op attempt) with
     | CBreak _ _ => False
     | _ => True
     end.
Proof.
  unfold on_read_timeout.
  destruct (attempt <? retries - 1) eqn:E; simpl; [|now split].
  split; [|exact I].
  apply Nat.ltb_lt in E. unfold retries in E.
  constructor; [exact I|]. constructor; [|constructor]. simpl.
  destruct attempt as [|[|n]]; [now left|now right|lia].
Qed.

Section TraceInvariant.
Variables St R : Type.
Variable body : St -> str -> nat -> http_result -> list event * ctl St R.
Variable otherwise : St -> outcome R.
Variable allowed : str -> Prop.
Hypothesis otherwise_ends : forall st url attempt, otherwise st <> Awaiting url attempt.
Hypothesis body_keeps :
  forall st url attempt r,
    allowed url ->
    Forall (allowed_event allowed) (fst (body st url attempt r))
    /\ match snd (body st url attempt r) with
       | CBreak _ url' => allowed url'
       | _ => True
       end.

Lemma fetch_loop_allowed (script : list http_result) :
  forall st url attempt,
    allowed url ->
    Forall (allowed_event allowed)
      (trace (fetch_loop body otherwise st url attempt script))
    /\ match result (fetch_loop body otherwise st url attempt script) with
       | Awaiting url' _ => allowed url'
       | _ => True
       end.
Proof.
  induction script as [|r script IH]; intros st url attempt Hu.
  - simpl. now split.
  - cbn [fetch_loop]. destruct (body_keeps st url attempt r Hu) as [He Hc].
    destruct (body st url attempt r) as [evs c]. cbn [fst snd] in He, Hc.
    assert (Hpre : Forall (allowed_event allowed) (EvGet url :: evs))
      by (constructor; assumption).
    destruct c as [v|e|st' url'|]; cbn [after trace result].
    + split; [now rewrite app_nil_r|exact I].
    + split; [now rewrite app_nil_r|exact I].
    + destruct (is_empty url').
      * cbn [trace result]. split; [now rewrite app_nil_r|].
        destruct (otherwise st') eqn:E; try exact I.
        now apply otherwise_ends in E.
      * destruct (IH st' url' 0 Hc) as [Ht Hr].
        split; [apply Forall_app; now split|exact Hr].
    + destruct (S attempt <? retries);
        (destruct (IH st url (S attempt) Hu) as [Ht1 Hr1];
         destruct (IH st url 0 Hu) as [Ht0 Hr0];
         split; [apply Forall_app; now split|assumption]).
Qed.

End TraceInvariant.

Section Requests.
Context {rt : Runtime}.
Variable config : MochiConfig.

Lemma decks_continuation_allowed (b : str) :
  decks_request config (api_base_url config ++ lit "/decks?bookmark=" ++ b).
Proof.
  unfold decks_request.
  change (lit "/decks?bookmark=") with (lit "/decks" ++ lit "?bookmark=").
  rewrite <- app_assoc, app_assoc. apply starts_with_app.
Qed.

Lemma cards_continuation_allowed (b : str) :
  cards_request config
    (api_base_url config ++ lit "/cards?bookmark=" ++ b ++ lit "&limit=100").
Proof.
  split.
  - change (lit "/cards?bookmark=") with (lit "/cards?" ++ lit "bookmark=").
    rewrite <- app_assoc, app_assoc. apply starts_with_app.
  - rewrite !app_assoc. apply ends_with_app.
Qed.

Lemma decks_try_keeps (name : str) (url : str) (attempt : nat) (r : http_result) :
  decks_request config url ->
  Forall (allowed_event (decks_request config))
    (fst (decks_try config name tt url attempt r))
  /\ match snd (decks_try config name tt url attempt r) with
     | CBreak _ url' => decks_request config url'
     | _ => True
     end.
Proof.
  intros Hu. destruct r as [|info|status_code text body]; simpl.
  - destruct (@on_read_timeout_events unit json (decks_request config)
                Decks attempt) as [He Hc].
    split; [exact He|]. now destruct (snd (on_read_timeout Decks attempt)).
  - now split.
  - destruct (negb (status_code =? 200)%Z); [now split|].
    destruct body as [data|]; [|now split].
    destruct (find_deck name (docs data)) as [e|[id|]]; try now split.
    destruct (negb (bookmark_truthy (bookmark data)) || is_empty (docs data));
      simpl; (split; [constructor|]); [exact Hu|].
    exact (decks_continuation_allowed _).
Qed.

Lemma cards_try_keeps (cards : list json) (url : str) (attempt : nat)
    (r : http_result) :
  cards_request config url ->
  Forall (allowed_event (cards_request config))
    (fst (cards_try config cards url attempt r))
  /\ match snd (cards_try config cards url attempt r) with
     | CBreak _ url' => cards_request config url'
     | _ => True
     end.
Proof.
  intros Hu. destruct r as [|info|status_code text body]; simpl.
  - destruct (@on_read_timeout_events (list json) (list json)
                (cards_request config) Cards attempt) as [He Hc].
    split; [exact He|]. now destruct (snd (on_read_timeout Cards attempt)).
  - now split.
  - destruct (negb (status_code =? 200)%Z); [now split|].
    destruct body as [data|]; [|now split]. simpl.
    split; [repeat constructor|].
    destruct (is_empty (docs data)); [exact I|].
    destruct (negb (bookmark_truthy (bookmark data))); [exact I|].
    exact (cards_continuation_allowed _).
Qed.

(** X5.  In every run, whatever the server answers, [get_deck_id] requests
    only URLs that begin with the decks endpoint of the configured base
    URL, and [get_cards] only URLs that begin with the cards endpoint and
    end with the page size [&limit=100], the request left outstanding
    included; and every sleep of either function is of one or of two
    seconds. *)
Theorem requests_stay_on_the_endpoint
    (name : str) (deck_id : json) (script : list http_result) :
  (Forall (allowed_event (decks_request config))
     (trace (get_deck_id config name script))
   /\ match result (get_deck_id config name script) with
      | Awaiting url _ => decks_request config url
      | _ => True
      end)
  /\ (Forall (allowed_event (cards_request config))
        (trace (get_cards config deck_id script))
      /\ match result (get_cards config deck_id script) with
         | Awaiting url _ => cards_request config url
         | _ => True
         end).
Proof.
  unfold get_deck_id, get_cards, fetch.
  rewrite decks_url_not_empty, cards_url_not_empty. split.
  - apply fetch_loop_allowed.
    + discriminate.
    + intros [] url attempt r. apply decks_try_keeps.
    + unfold decks_request. rewrite <- (app_nil_r (_ ++ _)) at 2.
      apply starts_with_app.
  - apply fetch_loop_allowed.
    + discriminate.
    + apply cards_try_keeps.
    + split.
      * change (lit "/cards?deck-id=") with (lit "/cards?" ++ lit "deck-id=").
        rewrite <- app_assoc, app_assoc. apply starts_with_app.
      * rewrite !app_assoc. apply ends_with_app.
Qed.

End Requests.

(** ** The fields of a parsed record *)

Lemma lazy_group_sound (s g : str) :
  lazy_group s = Some g ->
  (exists post, s = g ++ ch_rparen :: post)
  /\ ~ In ch_rparen g /\ ~ In ch_newline g.
Proof.
  revert g. induction s as [|c s IH]; intros g; simpl; [discriminate|].
  destruct (N.eqb_spec c ch_rparen) as [->|Hr].
  - intros [= <-]. split; [now exists s|]. split; intros [].
  - destruct (N.eqb_spec c ch_newline) as [->|Hn]; [discriminate|].
    destruct (lazy_group s) as [g'|]; [|discriminate].
    intros [= <-]. destruct (IH g' eq_refl) as ([post ->] & H1 & H2).
    split; [now exists post|].
    split; intros [H|H]; auto.
Qed.

Lemma lazy_group_complete (g post : str) :
  ~ In ch_newline g -> lazy_group (g ++ ch_rparen :: post) <> None.
Proof.
  induction g as [|c g IH]; intros H; simpl; [discriminate|].
  destruct (N.eqb c ch_rparen); [discriminate|].
  destruct (N.eqb_spec c ch_newline) as [->|_]; [elim H; now left|].
  destruct (lazy_group (g ++ ch_rparen :: post)) eqn:E; [discriminate|].
  exfalso. apply IH; [|reflexivity]. intros Hin. apply H. now right.
Qed.

(** The pattern of line 106 finds a group exactly when the text has a
    pair of parentheses with no line break between them. *)
Lemma re_search_paren_sound (s g : str) :
  re_search_paren s = Some g ->
  has_group s g /\ ~ In ch_rparen g /\ ~ In ch_newline g.
Proof.
  induction s as [|c s IH]; simpl; [discriminate|].
  assert (Hrec : re_search_paren s = Some g ->
                 has_group (c :: s) g /\ ~ In ch_rparen g /\ ~ In ch_newline g).
  { intros H. destruct (IH H) as ((pre & post & ->) & H1 & H2).
    split; [now exists (c :: pre), post|now split]. }
  destruct (N.eqb_spec c ch_lparen) as [->|_]; [|exact Hrec].
  destruct (lazy_group s) as [g'|] eqn:E; [|exact Hrec].
  intros [= <-]. destruct (lazy_group_sound s g' E) as ([post ->] & H1 & H2).
  split; [now exists [], post|now split].
Qed.

Lemma re_search_paren_complete (s g : str) :
  has_group s g -> ~ In ch_newline g -> re_search_paren s <> None.
Proof.
  intros (pre & post & ->) Hg. induction pre as [|c pre IH]; simpl.
  - destruct (lazy_group (g ++ ch_rparen :: post)) eqn:E; [discriminate|].
    now apply lazy_group_complete in E.
  - destruct (N.eqb c ch_lparen); [|exact IH].
    now destruct (lazy_group (pre ++ ch_lparen :: g ++ ch_rparen :: post)).
Qed.

Section RecordFields.
Context {rt : Runtime}.

Lemma pinyin_loop_group (entries : list (str * json)) (g : str) :
  pinyin_loop entries = inr g ->
  (exists key value t,
      In (key, value) entries /\ entry_text value t
      /\ re_search_paren t = Some g)
  \/ (g = []
      /\ forall key value,
           In (key, value) entries ->
           exists t, entry_text value t /\ re_search_paren t = None).
Proof.
  unfold entry_text.
  induction entries as [|[key value] entries IH]; simpl.
  - intros [= <-]. right. split; [reflexivity|]. intros ? ? [].
  - destruct (py_get value (lit "text") (JStr [])) as [e|v] eqn:E; [discriminate|].
    destruct v as [| | |t| |]; try discriminate.
    destruct (re_search_paren t) as [g'|] eqn:Et.
    + intros [= <-]. left. exists key, value, t. auto.
    + intros H. destruct (IH H) as [(k & v & t' & Hin & Ht & Hs)|[-> Hall]].
      * left. exists k, v, t'. auto.
      * right. split; [reflexivity|].
        intros k v [Heq|Hin]; [|exact (Hall k v Hin)].
        injection Heq as <- <-. now exists t.
Qed.

(** The steps of [extract], for a card that gave a record. *)
Lemma extract_steps (card : json) (r : ParsedRecord) :
  extract card = inr r ->
  exists cc pinyin_entries field_entries,
    py_get card (lit "component-cache") (JObj []) = inr cc
    /\ py_get cc (lit "pinyin") (JObj []) = inr (JObj pinyin_entries)
    /\ pinyin_loop pinyin_entries = inr (pinyin r)
    /\ py_get card (lit "fields") (JObj []) = inr (JObj field_entries)
    /\ hanzi_loop field_entries = inr (hanzi r)
    /\ extract_meaning card = inr (meaning r)
    /\ extract_added card = inr (added r).
Proof.
  unfold extract. simpl.
  destruct (py_get card (lit "component-cache") (JObj [])) as [?|cc];
    [discriminate|].
  destruct (py_get cc (lit "pinyin") (JObj [])) as [?|pc] eqn:Epc; [discriminate|].
  destruct pc as [| | | | |pe]; try discriminate.
  cbn [py_items ret Monad_either].
  destruct (pinyin_loop pe) as [?|py] eqn:Ep; [discriminate|].
  destruct (py_get card (lit "fields") (JObj [])) as [?|fields_]; [discriminate|].
  destruct fields_ as [| | | | |fe]; try discriminate.
  cbn [py_items ret Monad_either].
  destruct (hanzi_loop fe) as [?|h] eqn:Eh; [discriminate|].
  destruct (extract_meaning card) as [?|m]; [discriminate|].
  destruct (extract_added card) as [?|a]; [discriminate|].
  intros [= <-]. exists cc, pe, fe. simpl. now repeat split.
Qed.

(** X6.  The pinyin of a record is the text between the first pair of
    parentheses, on one line, of the first entry of
    [component-cache.pinyin] that has such a pair; it holds no closing
    parenthesis and no line break.  It is empty when no entry has a pair
    of parentheses without a line break between them. *)
Theorem pinyin_is_a_parenthesised_group (card : json) (r : ParsedRecord) :
  fst (parse_card card) = inr (Some r) ->
  ~ In ch_rparen (pinyin r) /\ ~ In ch_newline (pinyin r)
  /\ exists cc entries,
       py_get card (lit "component-cache") (JObj []) = inr cc
       /\ py_get cc (lit "pinyin") (JObj []) = inr (JObj entries)
       /\ ((exists key value t,
              In (key, value) entries /\ entry_text value t
              /\ has_group t (pinyin r))
           \/ (pinyin r = []
               /\ forall key value,
                    In (key, value) entries ->
                    exists t, entry_text value t
                              /\ forall g, has_group t g -> In ch_newline g)).
Proof.
  intros H. apply parse_card_some in H as [H _].
  destruct (extract_steps card r H) as (cc & pe & fe & Hcc & Hpc & Hp & _).
  destruct (pinyin_loop_group pe (pinyin r) Hp)
    as [(key & value & t & Hin & Ht & Hs)|[He Hall]].
  - destruct (re_search_paren_sound t _ Hs) as (Hg & H1 & H2).
    split; [exact H1|]. split; [exact H2|].
    exists cc, pe. split; [exact Hcc|]. split; [exact Hpc|].
    left. exists key, value, t. auto.
  - rewrite He. split; [intros []|]. split; [intros []|].
    exists cc, pe. split; [exact Hcc|]. split; [exact Hpc|].
    right. split; [reflexivity|]. intros key value Hin.
    destruct (Hall key value Hin) as (t & Ht & Hs). exists t.
    split; [exact Ht|]. intros g Hg.
    destruct (in_dec N.eq_dec ch_newline g) as [Hi|Hi]; [exact Hi|].
    now apply (re_search_paren_complete t g Hg) in Hi.
Qed.

(** X7.  The hanzi of a record has no whitespace at its start or at its
    end: stripping it again changes nothing. *)
Theorem hanzi_is_trimmed (card : json) (r : ParsedRecord) :
  fst (parse_card card) = inr (Some r) ->
  lstrip (hanzi r) = hanzi r /\ rstrip (hanzi r) = hanzi r
  /\ strip (hanzi r) = hanzi r.
Proof.
  intros H. apply parse_card_some in H as [H _].
  destruct (extract_steps card r H) as (_ & _ & fe & _ & _ & _ & _ & Hh & _).
  apply hanzi_loop_first_other in Hh.
  assert (E : exists s, hanzi r = strip s).
  { destruct (first_other_field fe) as [[k v]|].
    - destruct Hh as (value & _ & ->). now exists (re_sub_V value).
    - exists []. now rewrite Hh. }
  destruct E as [s ->].
  assert (Hl : lstrip (strip s) = strip s) by apply lstrip_strip.
  assert (Hr : rstrip (strip s) = strip s) by apply rstrip_strip.
  split; [exact Hl|]. split; [exact Hr|].
  unfold strip at 1. now rewrite Hl, Hr.
Qed.

(** X8.  The meaning of a record is the card's [name] when that is true
    for Python (a string that is not empty, in particular); otherwise it
    is the first key of [component-cache.translate], and the name itself
    when there is no key. *)
Theorem meaning_is_name_or_first_translation (card : json) (r : ParsedRecord) :
  fst (parse_card card) = inr (Some r) ->
  exists name,
    py_get card (lit "name") (JStr []) = inr name
    /\ (truthy name = true -> meaning r = name)
    /\ (truthy name = false ->
        exists cc entries,
          py_get card (lit "component-cache") (JObj []) = inr cc
          /\ py_get cc (lit "translate") (JObj []) = inr (JObj entries)
          /\ meaning r = match entries with
                         | (key, _) :: _ => JStr key
                         | [] => name
                         end).
Proof.
  intros H. apply parse_card_some in H as [H _].
  destruct (extract_steps card r H) as (cc & _ & _ & Hcc & _ & _ & _ & _ & Hm & _).
  unfold extract_meaning in Hm. simpl in Hm.
  destruct (py_get card (lit "name") (JStr [])) as [?|name]; [discriminate|].
  exists name. split; [reflexivity|].
  destruct (truthy name); simpl in Hm.
  - split; [|discriminate]. intros _. now injection Hm.
  - split; [discriminate|]. intros _. rewrite Hcc in Hm.
    destruct (py_get cc (lit "translate") (JObj [])) as [?|tc] eqn:Et;
      [discriminate|].
    destruct tc as [| | | | |te]; try discriminate.
    cbn [py_items ret Monad_either] in Hm.
    exists cc, te. split; [exact Hcc|]. split; [exact Et|].
    destruct te as [|[key v] te]; now injection Hm.
Qed.

Lemma extract_raises_with_added (card : json) (e : exn) :
  extract_added card = inl e -> exists e', extract card = inl e'.
Proof.
  intros Ha. unfold extract. simpl.
  destruct (py_get card (lit "component-cache") (JObj [])) as [?|cc]; [eauto|].
  destruct (py_get cc (lit "pinyin") (JObj [])) as [?|pc]; [eauto|].
  destruct (py_items pc) as [?|pe]; [eauto|].
  destruct (pinyin_loop pe) as [?|py]; [eauto|].
  destruct (py_get card (lit "fields") (JObj [])) as [?|fields_]; [eauto|].
  destruct (py_items fields_) as [?|fe]; [eauto|].
  destruct (hanzi_loop fe) as [?|h]; [eauto|].
  destruct (extract_meaning card) as [?|m]; [eauto|].
  rewrite Ha. eauto.
Qed.

(** X9.  A card whose [created-at.date] is a string that is not empty and
    that the timestamp parser rejects gives no record, whatever its
    pinyin, hanzi and meaning.  When the card holds no lone surrogate the
    error is caught, printed with the card, and [parse_card] returns
    [None]; when it holds one, the print of the error raises and
    [parse_card] raises the encoding error, with nothing printed. *)
Theorem unreadable_date_drops_the_card
    (card created : json) (date : str) :
  py_get card (lit "created-at") (JObj []) = inr created ->
  py_get created (lit "date") (JStr []) = inr (JStr date) ->
  date <> [] ->
  fromisoformat_strftime (replace_Z date) = None ->
  (forall r, fst (parse_card card) <> inr (Some r))
  /\ (json_encodable card = true ->
      exists e, parse_card card = (inr None, [EvPrint (MsgErrorParsing e card)]))
  /\ (json_encodable card = false ->
      parse_card card = (inl UnicodeEncodeError, [])).
Proof.
  intros Hc Hd Hne Hf.
  assert (Ha : extract_added card = inl ValueError).
  { assert (Ht : truthy (JStr date) = true)
      by (destruct date; [now elim Hne|reflexivity]).
    unfold extract_added. rewrite Hc. cbn -[replace_Z truthy py_get lit].
    now rewrite Hd, Ht, Hf. }
  destruct (extract_raises_with_added card _ Ha) as [e' He].
  unfold parse_card, report. rewrite He. split; [|split].
  - intros r. destruct (json_encodable card); discriminate.
  - intros ->. now exists e'.
  - intros ->. reflexivity.
Qed.

End RecordFields.

(** ** Writing and the whole run *)

Section Exporting.
Context {rt : Runtime}.
Variable config : MochiConfig.

Lemma ends_with_last_two {A : Type} (l m : list A) (a x y : A) :
  exists out, l ++ a :: (m ++ [x]) ++ [y] = out ++ [x; y].
Proof.
  exists (l ++ a :: m). rewrite <- !app_assoc. reflexivity.
Qed.

Lemma requests_report (m : message) (card : json) :
  requests (snd (report m card)) = [].
Proof. unfold report. now destruct (json_encodable card). Qed.

Lemma requests_parse_card (card : json) : requests (snd (parse_card card)) = [].
Proof.
  unfold parse_card. destruct (extract card) as [e|r];
    [|destruct (all_missing r)]; try apply requests_report. reflexivity.
Qed.

Lemma requests_valid_cards (cards : list json) :
  requests (snd (valid_cards cards)) = [].
Proof.
  induction cards as [|card cards IH]; [reflexivity|].
  cbn [valid_cards]. pose proof (requests_parse_card card) as Hp.
  destruct (parse_card card) as [[e|parsed] evs]; cbn [snd] in Hp |- *;
    [exact Hp|].
  destruct (valid_cards cards) as [res evs']. cbn [snd] in IH |- *.
  now rewrite requests_app, Hp, IH.
Qed.

Lemma length_valid_cards (cards : list json) :
  forall valid,
    fst (valid_cards cards) = inr valid -> length valid <= length cards.
Proof.
  induction cards as [|card cards IH]; intros valid.
  - intros [= <-]. reflexivity.
  - cbn [valid_cards]. destruct (parse_card card) as [[e|parsed] evs];
      [discriminate|].
    destruct (valid_cards cards) as [[e|valid'] evs']; [discriminate|].
    specialize (IH valid' eq_refl).
    cbn [fst]. intros [= <-]. destruct parsed; simpl; lia.
Qed.

(** The writes end without exception only when all the text is written. *)
Lemma write_all_returns (texts : list str) :
  snd (write_all texts) = inr tt -> fst (write_all texts) = concat texts.
Proof.
  induction texts as [|t texts IH]; [reflexivity|].
  cbn [write_all concat]. destruct (encodable t); [|discriminate].
  destruct (write_all texts) as [written res]. cbn [fst snd] in *.
  intros H. now rewrite (IH H).
Qed.

Lemma requests_write_vocab_to_file (cards : list json) (files0 : fs) :
  requests (fst (fst (write_vocab_to_file config cards files0))) = [].
Proof.
  unfold write_vocab_to_file. pose proof (requests_valid_cards cards) as H.
  destruct (valid_cards cards) as [[e|valid] evs]; cbn [snd] in H; [exact H|].
  destruct (open_for_writing (output_file config)); [exact H|].
  destruct (write_all (file_writes valid)) as [written [e|[]]]; cbn [fst];
    [exact H|].
  now rewrite requests_app, H.
Qed.

Lemma fs_write_same (path content : str) (files0 : fs) :
  fs_write path content files0 path = Some content.
Proof. unfold fs_write. now rewrite str_eqb_refl. Qed.

Lemma fs_write_other (path content : str) (files0 : fs) (p : str) :
  p <> path -> fs_write path content files0 p = files0 p.
Proof.
  intros H. unfold fs_write. destruct (str_eqb p path) eqn:E; [|reflexivity].
  apply str_eqb_eq in E. now elim H.
Qed.

Lemma write_vocab_to_file_other (cards : list json) (files0 : fs) (path : str) :
  path <> output_file config ->
  snd (write_vocab_to_file config cards files0) path = files0 path.
Proof.
  intros H. unfold write_vocab_to_file.
  destruct (valid_cards cards) as [[e|valid] evs]; [reflexivity|].
  destruct (open_for_writing (output_file config)); [reflexivity|].
  destruct (write_all (file_writes valid)) as [written [e|[]]]; cbn [snd];
    now apply fs_write_other.
Qed.

(** When the cards parse, the file opens and every value can be encoded,
    the whole text is written and the count is printed. *)
Lemma write_vocab_to_file_succeeds (cards : list json) (files0 : fs)
    (valid : list ParsedRecord) :
  fst (valid_cards cards) = inr valid ->
  open_for_writing (output_file config) = None ->
  Forall (fun r => encodable_fields (fields_of r)) valid ->
  write_vocab_to_file config cards files0
  = ((snd (valid_cards cards)
        ++ [EvPrint (MsgWrote (length valid) (output_file config))], inr tt),
     fs_write (output_file config) (file_text valid) files0).
Proof.
  intros Hv Ho He. unfold write_vocab_to_file.
  destruct (valid_cards cards) as [res evs]. cbn [fst snd] in *. subst res.
  assert (E : write_all (file_writes valid) = (file_text valid, inr tt)).
  { rewrite write_all_encodable by now apply writes_from_encodable.
    now rewrite file_writes_text. }
  now rewrite Ho, E.
Qed.

(** X10.  [write_vocab_to_file] never changes a path other than the
    output file.  When a [parse_card] raises, or [open] raises, it raises
    that exception and the files are as they were.  Once the file is open
    its old content is gone and what it holds begins the text of the
    records of the cards that parse, which are never more than the cards:
    all of that text when every value can be encoded, with the count
    printed last, and also whenever the function returns; an empty file
    when no card gave a record. *)
Theorem write_vocab_to_file_replaces_one_file (cards : list json) (files0 : fs) :
  let w := write_vocab_to_file config cards files0 in
  (forall path, path <> output_file config -> snd w path = files0 path)
  /\ (forall e, fst (valid_cards cards) = inl e ->
        w = ((snd (valid_cards cards), inl e), files0))
  /\ (forall valid,
        fst (valid_cards cards) = inr valid ->
        length valid <= length cards
        /\ (forall e, open_for_writing (output_file config) = Some e ->
              w = ((snd (valid_cards cards), inl e), files0))
        /\ (open_for_writing (output_file config) = None ->
            (exists written remaining,
                snd w (output_file config) = Some written
                /\ file_text valid = written ++ remaining)
            /\ (Forall (fun r => encodable_fields (fields_of r)) valid ->
                w = ((snd (valid_cards cards)
                        ++ [EvPrint (MsgWrote (length valid) (output_file config))],
                      inr tt),
                     fs_write (output_file config) (file_text valid) files0))
            /\ (snd (fst w) = inr tt ->
                snd w (output_file config) = Some (file_text valid))
            /\ (valid = [] -> snd w (output_file config) = Some []))).
Proof.
  intros w. subst w.
  split; [intros path H; now apply write_vocab_to_file_other|].
  split.
  { intros e He. unfold write_vocab_to_file.
    destruct (valid_cards cards) as [res evs]. cbn [fst snd] in *. now subst res. }
  intros valid Hv. split; [now apply length_valid_cards|]. split.
  { intros e Ho. unfold write_vocab_to_file.
    destruct (valid_cards cards) as [res evs]. cbn [fst snd] in *. subst res.
    now rewrite Ho. }
  intros Ho. split; [|split; [|split]].
  - unfold write_vocab_to_file.
    destruct (valid_cards cards) as [res evs]. cbn [fst snd] in *. subst res.
    rewrite Ho.
    destruct (write_all_prefix (file_writes valid)) as [remaining Hp].
    rewrite file_writes_text in Hp.
    destruct (write_all (file_writes valid)) as [written [e|[]]];
      cbn [fst snd] in *; exists written, remaining;
      (split; [apply fs_write_same|exact Hp]).
  - intros He. now apply write_vocab_to_file_succeeds.
  - unfold write_vocab_to_file.
    destruct (valid_cards cards) as [res evs]. cbn [fst snd] in *. subst res.
    rewrite Ho. pose proof (write_all_returns (file_writes valid)) as Hr.
    rewrite file_writes_text in Hr.
    destruct (write_all (file_writes valid)) as [written [e|[]]];
      cbn [fst snd] in *; [discriminate|].
    intros _. rewrite (Hr eq_refl). apply fs_write_same.
  - intros ->. unfold write_vocab_to_file.
    destruct (valid_cards cards) as [res evs]. cbn [fst snd] in *. subst res.
    rewrite Ho. cbn. apply fs_write_same.
Qed.

(** X11.  When the resolver returns an id and the fetcher, reading the
    script where the resolver stopped, returns the cards of that id,
    [main] finishes; the requests of the run are those of the resolver
    followed by those of the fetcher and no other.  Without cards no file
    is touched and the last line printed says that none was found.  With
    cards the files are those [write_vocab_to_file] leaves, so no path but
    the output file changes; an exception of the write step is caught and
    printed last; when the cards parse, the file opens and every value can
    be encoded, the output file holds the text of the records and the run
    ends on the line that names the file. *)
Theorem main_exports_what_was_fetched
    (script : list http_result) (files0 : fs) (deck_id : json)
    (cards : list json) :
  let r1 := get_deck_id config (deck_name config) script in
  let r2 := get_cards config deck_id (rest r1) in
  let p := main config script files0 in
  result r1 = Returned deck_id ->
  result r2 = Returned cards ->
  final p = Finished
  /\ requests (output p) = requests (trace r1) ++ requests (trace r2)
  /\ (cards = [] ->
      files p = files0 /\ exists out, output p = out ++ [EvPrint MsgNoCards])
  /\ (cards <> [] ->
      files p = snd (write_vocab_to_file config cards files0)
      /\ (forall path, path <> output_file config -> files p path = files0 path)
      /\ (forall e,
            snd (fst (write_vocab_to_file config cards files0)) = inl e ->
            exists out, output p = out ++ [EvPrint (MsgError e)])
      /\ (forall valid,
            fst (valid_cards cards) = inr valid ->
            open_for_writing (output_file config) = None ->
            Forall (fun r => encodable_fields (fields_of r)) valid ->
            files p (output_file config) = Some (file_text valid)
            /\ exists out,
                 output p
                 = out ++ [EvPrint (MsgWrote (length valid) (output_file config));
                           EvPrint (MsgExported (output_file config))])).
Proof.
  intros r1 r2 p H1 H2. subst p. unfold main. cbv zeta.
  fold r1. rewrite H1. fold r2. rewrite H2.
  destruct cards as [|card cards].
  - cbn [is_empty output files final].
    split; [reflexivity|]. split.
    + repeat (first [rewrite requests_app | progress cbn [requests app]]).
      now rewrite ?app_nil_r.
    + split; [|intros H; now elim H]. intros _. split; [reflexivity|eauto].
  - cbn [is_empty].
    pose proof (requests_write_vocab_to_file (card :: cards) files0) as Hq.
    pose proof (write_vocab_to_file_other (card :: cards) files0) as Hother.
    pose proof (write_vocab_to_file_succeeds (card :: cards) files0) as Hok.
    destruct (write_vocab_to_file config (card :: cards) files0)
      as [[evs res] files1].
    cbn [fst snd] in Hq, Hother. cbn [fst snd output files final].
    split; [reflexivity|]. split.
    + repeat (first [rewrite requests_app | rewrite Hq
                     | progress cbn [requests app]]).
      now rewrite ?app_nil_r.
    + split; [discriminate|]. intros _.
      split; [reflexivity|]. split; [exact Hother|]. split.
      * intros e ->. apply ends_with_last.
      * intros valid Hv Ho He. specialize (Hok valid Hv Ho He).
        injection Hok as -> -> ->. split; [apply fs_write_same|].
        apply ends_with_last_two.
Qed.

End Exporting.

(** X12.  With an API key in the environment the configuration loads with
    that key, and the line printed at start shows the first four and the
    last four characters of the key.  For a key of eight characters or
    fewer the two pieces give the whole key away; for a longer key they
    are four characters each, the two ends of the key. *)
Theorem loaded_key_is_printed_in_part (env : environment) (key : str) :
  env_api_key env = Some key ->
  exists config head tail,
    load_config env = (inr config, [EvPrint (MsgLoadedKey head tail)])
    /\ api_key config = key
    /\ (length key <= 8 ->
        head ++ skipn (length head + length tail - length key) tail = key)
    /\ (8 <= length key ->
        length head = 4 /\ length tail = 4
        /\ exists middle, key = head ++ middle ++ tail).
Proof.
  intros H. unfold load_config. rewrite H.
  eexists _, (firstn 4 key), (last_chars 4 key).
  split; [reflexivity|]. split; [reflexivity|].
  unfold last_chars. rewrite length_firstn, length_skipn. split; intros Hl.
  - rewrite skipn_skipn.
    destruct (Nat.le_gt_cases (length key) 4) as [H4|H4].
    + rewrite firstn_all2 by exact H4.
      rewrite skipn_all2 by lia. apply app_nil_r.
    + replace (Nat.min 4 (length key)
               + (length key - (length key - 4)) - length key
               + (length key - 4)) with 4 by lia.
      apply firstn_skipn.
  - split; [lia|]. split; [lia|].
    exists (firstn (length key - 8) (skipn 4 key)).
    rewrite <- (firstn_skipn 4 key) at 1. f_equal.
    rewrite <- (firstn_skipn (length key - 8) (skipn 4 key)) at 1. f_equal.
    rewrite skipn_skipn. f_equal. lia.
Qed.

(** ** The further properties at concrete inputs *)

Lemma other_deck_example (name id : string) :
  ascii_lower (lit name) <> ascii_lower (lit "Chinese") ->
  @other_deck example_runtime (lit "Chinese") (deck name id).
Proof. intros H. exists (lit name). split; [reflexivity|exact H]. Defined.

(** The deck on the second page, under another case, before a second
    deck of the name. *)
Lemma deck_on_second_page_witness :
  result (@get_deck_id example_runtime example_config (lit "Chinese")
            [ok first_decks_page; ok chinese_decks_page; ReadTimeout])
  = Returned (JStr (lit "d2")).
Proof.
  assert (H1 : Forall (@passed_page example_runtime (lit "Chinese"))
                 [first_decks_page]).
  { constructor; [|constructor]. split; [|reflexivity].
    constructor; [|constructor].
    apply other_deck_example. vm_compute. discriminate. }
  assert (H2 : Forall (@other_deck example_runtime (lit "Chinese"))
                 [deck "Other" "d3"]).
  { constructor; [|constructor].
    apply other_deck_example. vm_compute. discriminate. }
  assert (H3 : @named_deck example_runtime (lit "Chinese") (JStr (lit "d2"))
                 (deck "CHINESE" "d2")).
  { exists (lit "CHINESE"). repeat split. }
  exact (proj1 (@get_deck_id_returns_first_match example_runtime example_config
                  (lit "Chinese") [first_decks_page] chinese_decks_page
                  [deck "Other" "d3"] [deck "chinese" "d4"]
                  (deck "CHINESE" "d2") (JStr (lit "d2")) [ReadTimeout]
                  H1 eq_refl H2 H3)).
Defined.

(** An entry with an id and no name, before the deck. *)
Lemma nameless_entry_witness :
  result (@get_deck_id example_runtime example_config (lit "Chinese")
            [ok nameless_deck_page])
  = Raised (KeyError (lit "name")).
Proof.
  assert (H2 : Forall (@other_deck example_runtime (lit "Chinese"))
                 [deck "Other" "d1"]).
  { constructor; [|constructor].
    apply other_deck_example. vm_compute. discriminate. }
  exact (proj1 (@get_deck_id_raises_on_nameless_entry example_runtime
                  example_config (lit "Chinese") [] nameless_deck_page
                  [deck "Other" "d1"] [deck "Chinese" "d2"]
                  [(lit "id", JStr (lit "d0"))] []
                  (Forall_nil _) eq_refl H2 eq_refl)).
Defined.

(** Two timeouts before the first page of cards and one before the
    second. *)
Lemma timeouts_between_pages_witness :
  result (@get_cards example_runtime example_config (JStr (lit "D1"))
            [ReadTimeout; ReadTimeout; ok first_cards_page;
             ReadTimeout; ok last_cards_page])
  = result (@get_cards example_runtime example_config (JStr (lit "D1"))
              [ok first_cards_page; ok last_cards_page]).
Proof.
  assert (H : Forall (fun kr : nat * http_result =>
                        fst kr <= 2 /\ snd kr <> ReadTimeout)
                [(2, ok first_cards_page); (1, ok last_cards_page)]).
  { repeat constructor; discriminate. }
  exact (proj2 (@timeouts_under_three_are_transparent example_runtime
                  example_config (lit "Chinese") (JStr (lit "D1"))
                  [(2, ok first_cards_page); (1, ok last_cards_page)] H)).
Defined.

(** A connection error on the second attempt of the first request. *)
Lemma connection_error_witness :
  @get_deck_id example_runtime example_config (lit "Chinese")
    [ReadTimeout; OtherFailure (lit "ConnectError"); ok first_decks_page]
  = {| trace := [EvGet decks_url; EvPrint (MsgRetrying 1 3 1); EvSleep 1;
                 EvGet decks_url];
       result := Raised (TransportError (lit "ConnectError"));
       rest := [ok first_decks_page] |}.
Proof.
  exact (proj1 (proj1 (@other_failures_are_not_retried example_runtime
                         example_config (lit "Chinese") (JStr (lit "D1"))
                         [ReadTimeout] [ok first_decks_page] decks_url 1
                         (lit "ConnectError") [])
                  eq_refl)).
Defined.

(** The pinyin, the hanzi and the meaning of the design document's card,
    and the meaning of a card without name. *)
Lemma pinyin_of_the_example_card_witness :
  ~ In ch_rparen (pinyin example_record) /\ ~ In ch_newline (pinyin example_record).
Proof.
  destruct (@pinyin_is_a_parenthesised_group example_runtime example_card
              example_record eq_refl) as (H1 & H2 & _).
  now split.
Defined.

Lemma hanzi_of_the_example_card_is_trimmed_witness :
  strip (hanzi example_record) = hanzi example_record.
Proof.
  exact (proj2 (proj2 (@hanzi_is_trimmed example_runtime example_card
                         example_record eq_refl))).
Defined.

Lemma meaning_of_a_nameless_card_witness :
  fst (@parse_card example_runtime card_translated)
  = inr (Some {| pinyin := []; hanzi := []; meaning := JStr (lit "did not V");
                 added := JStr [] |})
  /\ exists name,
       py_get card_translated (lit "name") (JStr []) = inr name
       /\ truthy name = false.
Proof.
  split; [reflexivity|].
  destruct (@meaning_is_name_or_first_translation example_runtime card_translated
              {| pinyin := []; hanzi := []; meaning := JStr (lit "did not V");
                 added := JStr [] |} eq_refl) as (name & Hn & _ & _).
  exists name. split; [exact Hn|].
  simpl in Hn. injection Hn as <-. reflexivity.
Defined.

(** A card dated [yesterday]. *)
Lemma card_dated_yesterday_witness :
  exists e,
    @parse_card example_runtime (card_dated "word" "yesterday")
    = (inr None, [EvPrint (MsgErrorParsing e (card_dated "word" "yesterday"))]).
Proof.
  refine (proj1 (proj2 (@unreadable_date_drops_the_card example_runtime
            (card_dated "word" "yesterday")
            (JObj [(lit "date", JStr (lit "yesterday"))]) (lit "yesterday")
            eq_refl eq_refl _ eq_refl)) eq_refl).
  discriminate.
Defined.

(** Two cards that give no record: the file is written, empty.  A record
    with a lone surrogate as hanzi: the file keeps the first line. *)
Lemma no_record_empty_file_witness :
  snd (@write_vocab_to_file example_runtime example_config
         [blank_card; malformed_card] no_files) (lit "chinese_vocab.txt")
  = Some [].
Proof.
  destruct (@write_vocab_to_file_replaces_one_file example_runtime example_config
              [blank_card; malformed_card] no_files) as (_ & _ & H).
  destruct (H [] eq_refl) as (_ & _ & H').
  destruct (H' eq_refl) as (_ & _ & _ & H'').
  exact (H'' eq_refl).
Defined.

Example surrogate_truncates_the_file :
  @write_all (@file_writes example_runtime [surrogate_record])
  = (lit "Pinyin: a" ++ [ch_newline], inl UnicodeEncodeError).
Proof. reflexivity. Qed.

(** A whole run: the deck on the first page, two pages of cards. *)
Lemma whole_run_witness :
  files (@main example_runtime example_config
           [ok chinese_decks_page; ok first_cards_page; ok last_cards_page]
           no_files) (lit "chinese_vocab.txt")
  = Some (@file_text example_runtime
            [example_record;
             {| pinyin := []; hanzi := lit "T"; meaning := JStr (lit "television");
                added := JStr [] |}]).
Proof.
  destruct (@main_exports_what_was_fetched example_runtime example_config
              [ok chinese_decks_page; ok first_cards_page; ok last_cards_page]
              no_files (JStr (lit "d2"))
              [example_card; card_with "TV" "television"] eq_refl eq_refl)
    as (_ & _ & _ & H).
  destruct H as (_ & _ & _ & H); [discriminate|].
  refine (proj1 (H _ eq_refl eq_refl _)). repeat constructor.
Defined.

(** The key of the example environment, sixteen characters. *)
Lemma example_key_witness :
  exists config head tail,
    load_config example_env = (inr config, [EvPrint (MsgLoadedKey head tail)])
    /\ api_key config = lit "0123456789abcdef".
Proof.
  destruct (loaded_key_is_printed_in_part example_env (lit "0123456789abcdef")
              eq_refl) as (config & head & tail & H1 & H2 & _).
  exists config, head, tail. now split.
Defined.
